(** * InBalance: a round-robin reverse-proxy load balancer (main.go)

    A shallow embedding of the server pool (rotation cursor, liveness
    flags, passive marking), of the active health check, and of the
    per-request dispatcher with its retry / failover error handler,
    followed by the properties of the specification that concern them.

    Conventions.
    - Go's [uint64] is a [Z] in [0, 2^64) with the wrap-around written out;
      Go's [int] is taken to be 64 bits wide, also a [Z] with its wrap.
    - A [*Backend] is the slot of the pool's slice it was appended to: the
      slice is append-only during start-up and every slot owns its own
      record, so the slot number is the pointer's identity.
    - The program runs one request at a time here: the mutex of a backend
      and the atomic operations on the cursor are single steps.
    - Log output is not modelled. *)

From Stdlib Require Import ZArith String Ascii List Lia.
From stdpp Require Import base numbers list strings.

Local Open Scope Z_scope.

(** ** Results of code that may panic *)

Inductive result (A : Type) : Type :=
| Returns (a : A)
| Panics (msg : string).
Arguments Returns {A} a.
Arguments Panics {A} msg.

(** ** Machine integers *)

Definition uint64_modulus : Z := 2 ^ 64.
Definition int_min : Z := - 2 ^ 63.
Definition int_modulus : Z := 2 ^ 64.

(** Addition on [int] (two's complement, silent wrap-around). *)
Definition int_add (a b : Z) : Z :=
  (a + b - int_min) mod int_modulus + int_min.

(** [s[i]] on a slice, with an [int] index: outside the slice the
    program panics. *)
Definition index {A : Type} (l : list A) (i : Z) : option A :=
  if i <? 0 then None else l !! Z.to_nat i.

(** [len(s)] as an [int]. *)
Definition len {A : Type} (l : list A) : Z := Z.of_nat (length l).

(** ** net/url: what the program observes of a [*url.URL] *)

Module url.

(** The program reads two things of a parsed URL: its [Host] field (to
    dial it) and the text [String()] renders (to compare endpoints). *)
Record URL : Type := mkURL { Host : string; String : string }.

End url.

(** ** sync/atomic on a [uint64] *)

Module atomic.

(** [AddUint64(&x, delta)]: the new value, which is also returned. *)
Definition AddUint64 (x delta : Z) : Z := (x + delta) mod uint64_modulus.

(** [StoreUint64(&x, v)]: the new value. *)
Definition StoreUint64 (x v : Z) : Z := v mod uint64_modulus.

End atomic.

(** ** Backend *)

(** [mux] guards [Alive] only, and the [ReverseProxy] of a backend is bound
    to its [URL] when the backend is built; the proxy is identified with
    the slot of its backend. *)
Record Backend : Type := mkBackend { URL : url.URL; Alive : bool }.

Definition SetAlive (b : Backend) (alive : bool) : Backend :=
  {| URL := URL b; Alive := alive |}.

Definition IsAlive (b : Backend) : bool := Alive b.

(** ** ServerPool *)

Record ServerPool : Type := mkServerPool
  { backends : list Backend; current : Z }.

Definition AddBackend (s : ServerPool) (backend : Backend) : ServerPool :=
  {| backends := backends s ++ [backend]; current := current s |}.

(** The pool [main] builds from the backends of the configuration: one
    backend per URL, in order, each marked alive; the cursor starts at 0.
    [main] stops before this when the list is empty. *)
Definition configure (tokens : list url.URL) : ServerPool :=
  fold_left (fun s serverURL => AddBackend s {| URL := serverURL; Alive := true |})
            tokens {| backends := []; current := 0 |}.

(** [NextIndex]: the cursor is incremented, the new value is reduced modulo
    the length of the slice (an unsigned division: it panics on a zero
    divisor); the conversion of the result to [int] is exact, the result
    being below the length of a slice. *)
Definition NextIndex (s : ServerPool) : result (Z * ServerPool) :=
  let c := atomic.AddUint64 (current s) 1 in
  let s' := {| backends := backends s; current := c |} in
  if len (backends s) =? 0
  then Panics "integer divide by zero"
  else Returns (c mod len (backends s), s').

(** The [range] loop of [MarkBackendStatus], with its [break]. *)
Fixpoint MarkBackendStatus_range
    (bs : list Backend) (backendURL : url.URL) (alive : bool) : list Backend :=
  match bs with
  | [] => []
  | b :: rest =>
      if String.eqb (url.String (URL b)) (url.String backendURL)
      then SetAlive b alive :: rest
      else b :: MarkBackendStatus_range rest backendURL alive
  end.

Definition MarkBackendStatus
    (s : ServerPool) (backendURL : url.URL) (alive : bool) : ServerPool :=
  {| backends := MarkBackendStatus_range (backends s) backendURL alive;
     current := current s |}.

(** The scan of [GetNextPeer]: [i] is the loop variable, [n] the number of
    iterations left before [i] reaches [l = len + next]. *)
Fixpoint GetNextPeer_scan
    (s : ServerPool) (next i : Z) (n : nat) : result (option nat * ServerPool) :=
  match n with
  | O => Returns (None, s)
  | S n' =>
      let idx := Z.rem i (len (backends s)) in
      match index (backends s) idx with
      | None => Panics "index out of range"
      | Some b =>
          if IsAlive b
          then Returns
                 (Some (Z.to_nat idx),
                  if i =? next then s
                  else {| backends := backends s;
                          current := atomic.StoreUint64 (current s) idx |})
          else GetNextPeer_scan s next (i + 1) n'
      end
  end.

Definition GetNextPeer (s : ServerPool) : result (option nat * ServerPool) :=
  match NextIndex s with
  | Panics msg => Panics msg
  | Returns (next, s') =>
      (* l - next iterations at most *)
      GetNextPeer_scan s' next next (Z.to_nat (len (backends s') + next - next))
  end.

(** ** time: durations are nanoseconds *)

Module time.

Definition Millisecond : Z := 1000000.
Definition Second : Z := 1000 * Millisecond.

End time.

(** ** HealthCheck *)

(** One call of [net.DialTimeout]. *)
Record Dial : Type := mkDial
  { network : string; address : string; timeout : Z }.

Section HealthCheck.

(** The network: whether the [k]-th dial of a pass connects ([err == nil]). *)
Variable DialTimeout : nat -> Dial -> bool.

(** [isBackendAlive]: the dial it performs and its verdict. *)
Definition isBackendAlive (k : nat) (u : url.URL) : Dial * bool :=
  let timeout := 2 * time.Second in
  let d := mkDial "tcp" (url.Host u) timeout in
  (d, if DialTimeout k d then true else false).

(** The [range] loop of [HealthCheck]; [k] dials were made before. *)
Fixpoint HealthCheck_range (k : nat) (bs : list Backend)
  : list Dial * list Backend :=
  match bs with
  | [] => ([], [])
  | b :: rest =>
      let '(d, alive) := isBackendAlive k (URL b) in
      let '(ds, rest') := HealthCheck_range (S k) rest in
      (d :: ds, SetAlive b alive :: rest')
  end.

Definition HealthCheck (s : ServerPool) : list Dial * ServerPool :=
  let '(ds, bs) := HealthCheck_range 0 (backends s) in
  (ds, {| backends := bs; current := current s |}).

End HealthCheck.

(** ** context: values carried by a request *)

Module context.

(** An interface value: its dynamic type and its value.  Two interface
    values are equal when both agree. *)
Inductive any : Type :=
| of_int (n : Z)              (* an [int] *)
| of_contextKey (s : string)  (* main's local [type contextKey string] *)
| of_other (tag : nat).       (* a value of any other type *)

#[global] Instance any_eq_dec : EqDecision any.
Proof. solve_decision. Defined.

(** A context is the chain of its [WithValue] layers, innermost first.
    The layers net/http puts around an inbound request have keys of its
    own types. *)
Definition Context : Type := list (any * any).

Definition WithValue (parent : Context) (key val : any) : Context :=
  (key, val) :: parent.

Fixpoint Value (c : Context) (key : any) : option any :=
  match c with
  | [] => None
  | (k, v) :: parent =>
      if bool_decide (k = key) then Some v else Value parent key
  end.

End context.

(** ** Per-request counters *)

(** [const ( Attempts int = iota; Retry )] *)
Definition Attempts : Z := 0.
Definition Retry : Z := 1.

(** [contextKey(c)] for an [int] constant [c]: the conversion of an integer
    to a string type yields the text of the code point [c]; below 128 that
    is one byte. *)
Definition contextKey (c : Z) : context.any :=
  context.of_contextKey (String.String (ascii_of_N (Z.to_N c)) EmptyString).

(** Of a request the handlers read its context only. *)
Record Request : Type := mkRequest { Context : context.Context }.

Definition WithContext (r : Request) (ctx : context.Context) : Request :=
  {| Context := ctx |}.

Definition GetAttemptsFromContext (r : Request) : Z :=
  match context.Value (Context r) (context.of_int Attempts) with
  | Some (context.of_int attempts) => attempts
  | _ => 1
  end.

Definition GetRetryFromContext (r : Request) : Z :=
  match context.Value (Context r) (context.of_int Retry) with
  | Some (context.of_int retry) => retry
  | _ => 0
  end.

(** ** The dispatcher and the error handler of a proxy *)

Definition StatusServiceUnavailable : Z := 503.

(** What a request handling does to the outside. *)
Inductive Event : Type :=
| EvLb (r : Request)                    (* [lb] is entered *)
| EvForward (peer : nat) (r : Request)  (* the proxy of slot [peer] sends [r] upstream *)
| EvResponse (peer : nat)               (* the upstream response is copied to the client *)
| EvSleep (d : Z)                       (* [<-time.After(d)] *)
| EvError (msg : string) (code : Z).    (* [http.Error(w, msg, code)] *)

(** Where control is: each call below is the last thing its caller does. *)
Inductive Control : Type :=
| CLb (r : Request)                       (* [lb(w, r)] *)
| CServeHTTP (peer : nat) (r : Request)   (* [peer.ReverseProxy.ServeHTTP(w, r)] *)
| CErrorHandler (peer : nat) (r : Request)(* [proxy.ErrorHandler(w, r, e)] *)
| CReturn                                 (* the handler has returned *)
| CPanic (msg : string).

Record World : Type := mkWorld
  { pool : ServerPool;      (* [serverPool] *)
    forwards : nat;         (* upstream round trips made so far *)
    trace : list Event }.

Definition emit (w : World) (e : Event) : World :=
  {| pool := pool w; forwards := forwards w; trace := trace w ++ [e] |}.

Definition with_pool (w : World) (s : ServerPool) : World :=
  {| pool := s; forwards := forwards w; trace := trace w |}.

Section Dispatch.

(** The upstreams: whether the [k]-th round trip, made to slot [peer],
    succeeds. *)
Variable transport : nat -> nat -> bool.

Definition lb (w : World) (r : Request) : World * Control :=
  let w := emit w (EvLb r) in
  let attempts := GetAttemptsFromContext r in
  if attempts >? 3
  then (emit w (EvError "Service not available" StatusServiceUnavailable),
        CReturn)
  else
    match GetNextPeer (pool w) with
    | Panics msg => (w, CPanic msg)
    | Returns (Some peer, s) => (with_pool w s, CServeHTTP peer r)
    | Returns (None, s) =>
        (emit (with_pool w s)
           (EvError "Service not available" StatusServiceUnavailable),
         CReturn)
    end.

(** [httputil.ReverseProxy.ServeHTTP]: one round trip; when it fails the
    proxy's [ErrorHandler] gets the request that was sent. *)
Definition ServeHTTP (w : World) (peer : nat) (r : Request)
  : World * Control :=
  let ok := transport (forwards w) peer in
  let w := {| pool := pool w; forwards := S (forwards w);
              trace := trace w ++ [EvForward peer r] |} in
  if ok then (emit w (EvResponse peer), CReturn)
  else (w, CErrorHandler peer r).

(** The [ErrorHandler] closure of the proxy of slot [peer]; its
    [serverURL] is the URL of that slot. *)
Definition ErrorHandler (w : World) (peer : nat) (request : Request)
  : World * Control :=
  let retries := GetRetryFromContext request in
  if retries <? 3
  then
    let w := emit w (EvSleep (10 * time.Millisecond)) in
    let ctx := context.WithValue (Context request) (contextKey Retry)
                 (context.of_int (int_add retries 1)) in
    (w, CServeHTTP peer (WithContext request ctx))
  else
    match backends (pool w) !! peer with
    | None => (w, CPanic "no such proxy")
    | Some b =>
        (* after 3 retries, mark this backend as down *)
        let w := with_pool w (MarkBackendStatus (pool w) (URL b) false) in
        let attempts := GetAttemptsFromContext request in
        let ctx := context.WithValue (Context request) (contextKey Attempts)
                     (context.of_int (int_add attempts 1)) in
        (w, CLb (WithContext request ctx))
    end.

Definition step (w : World) (c : Control) : World * Control :=
  match c with
  | CLb r => lb w r
  | CServeHTTP peer r => ServeHTTP w peer r
  | CErrorHandler peer r => ErrorHandler w peer r
  | CReturn => (w, CReturn)
  | CPanic msg => (w, CPanic msg)
  end.

(** [n] transfers of control. *)
Fixpoint run (n : nat) (w : World) (c : Control) : World * Control :=
  match n with
  | O => (w, c)
  | S n' => let '(w', c') := step w c in run n' w' c'
  end.

End Dispatch.

(** ** Observations on traces *)

(** How often [lb] was entered. *)
Fixpoint routing_entries (t : list Event) : nat :=
  match t with
  | [] => 0
  | EvLb _ :: t' => S (routing_entries t')
  | _ :: t' => routing_entries t'
  end.

(** The slots the request was sent to, in order. *)
Fixpoint forwarded_to (t : list Event) : list nat :=
  match t with
  | [] => []
  | EvForward peer _ :: t' => peer :: forwarded_to t'
  | _ :: t' => forwarded_to t'
  end.

(** ** Consecutive selections *)

(** [n] calls of [GetNextPeer] in a row, with the peers they return. *)
Fixpoint select_n (n : nat) (s : ServerPool) : result (list (option nat) * ServerPool) :=
  match n with
  | O => Returns ([], s)
  | S n' =>
      match GetNextPeer s with
      | Panics msg => Panics msg
      | Returns (p, s') =>
          match select_n n' s' with
          | Panics msg => Panics msg
          | Returns (ps, s'') => Returns (p :: ps, s'')
          end
      end
  end.


(** ** Properties as predicates *)

(** Round-robin fairness of a pool whose [N] backends are alive: [N + 1]
    selections in a row return, first, every slot once, in configuration
    order from the slot one past the cursor, and then the first of them
    again. *)
Definition rotation_start (s : ServerPool) : Z :=
  (current s + 1) mod len (backends s).

Definition round_robin (s : ServerPool) : Prop :=
  let N := length (backends s) in
  exists picks s',
    select_n (S N) s = Returns (picks, s') /\
    take N picks ≡ₚ (Some <$> seq 0 N) /\
    (forall k, (k < N)%nat ->
       picks !! k =
       Some (Some (Z.to_nat ((rotation_start s + Z.of_nat k) mod len (backends s))))) /\
    picks !! N = picks !! 0%nat.

(** The slot of the [k]-th of [n] selections in a row over a pool that is
    all alive, counted from 0. *)
Definition pick (s : ServerPool) (k : nat) : option nat :=
  Some (Z.to_nat (((current s + 1 + Z.of_nat k) mod uint64_modulus)
                  mod len (backends s))).

Definition all_alive (s : ServerPool) : Prop :=
  forall b, b ∈ backends s -> Alive b = true.

(** A request as net/http hands it to [lb]: no layer of its context has a
    key of type [int]. *)
Definition is_int (a : context.any) : bool :=
  match a with context.of_int _ => true | _ => false end.

Definition inbound (r : Request) : bool :=
  forallb (fun kv => negb (is_int (fst kv))) (Context r).

(** The request control is at. *)
Definition request_of (c : Control) : option Request :=
  match c with
  | CLb r | CServeHTTP _ r | CErrorHandler _ r => Some r
  | CReturn | CPanic _ => None
  end.

(** Control that will not come back to [lb]: it is past [lb], and the
    request it holds reads a retry count below 3. *)
Definition past_lb (c : Control) : Prop :=
  match c with
  | CLb _ => False
  | CServeHTTP _ r | CErrorHandler _ r => GetRetryFromContext r < 3
  | CReturn | CPanic _ => True
  end.

(** ** Sample pools and requests *)

Definition urlA : url.URL := url.mkURL "10.0.0.1:8081" "http://10.0.0.1:8081".
Definition urlB : url.URL := url.mkURL "10.0.0.2:8082" "http://10.0.0.2:8082".
Definition urlC : url.URL := url.mkURL "10.0.0.3:8083" "http://10.0.0.3:8083".

(** [A, B, C], all alive, with the cursor at [c]. *)
Definition poolABC (c : Z) : ServerPool :=
  mkServerPool [mkBackend urlA true; mkBackend urlB true; mkBackend urlC true] c.

(** [A, B], both alive, as [main] leaves the pool. *)
Definition poolAB : ServerPool :=
  mkServerPool [mkBackend urlA true; mkBackend urlB true] 0.

(** [A, B, A]: the endpoint of [A] is configured twice. *)
Definition poolABA : ServerPool :=
  mkServerPool [mkBackend urlA true; mkBackend urlB true; mkBackend urlA true] 0.

Definition worldAB : World := mkWorld poolAB 0 [].

(** A request fresh from the server. *)
Definition fresh_request : Request := mkRequest [(context.of_other 0, context.of_other 1)].

(** A request whose context carries the retry count 3 under the key that
    [GetRetryFromContext] reads. *)
Definition retried_request : Request :=
  mkRequest [(context.of_int Retry, context.of_int 3)].

(** A request whose context carries the attempt number 4 under the key
    that [GetAttemptsFromContext] reads. *)
Definition exhausted_request : Request :=
  mkRequest [(context.of_int Attempts, context.of_int 4)].

(** Five backends with endpoints of their own, all alive. *)
Definition pool5 : ServerPool :=
  configure [url.mkURL "10.0.0.1:80" "http://10.0.0.1:80";
             url.mkURL "10.0.0.2:80" "http://10.0.0.2:80";
             url.mkURL "10.0.0.3:80" "http://10.0.0.3:80";
             url.mkURL "10.0.0.4:80" "http://10.0.0.4:80";
             url.mkURL "10.0.0.5:80" "http://10.0.0.5:80"].

(** No upstream answers. *)
Definition all_down (k peer : nat) : bool := false.

(** ** healthCheck: one pass on every tick *)

(** The loop of [healthCheck] never ends; [ticks] are the ticks of the
    ticker it has received so far, each with the network as it answers
    during the pass that tick starts.  The dials of every pass are kept. *)
Fixpoint healthCheck (ticks : list (nat -> Dial -> bool)) (s : ServerPool)
  : list (list Dial) * ServerPool :=
  match ticks with
  | [] => ([], s)
  | net :: rest =>
      let '(ds, s') := HealthCheck net s in
      let '(dss, s'') := healthCheck rest s' in
      (ds :: dss, s'')
  end.

(** ** main: from the configuration file to serving *)

Record Config : Type := mkConfig { Port : Z; Backends : list string }.

(** How [main] ends: in [log.Fatal] with a message, or never, the server
    serving on a port with the pool that was built. *)
Inductive Startup : Type :=
| Fatal (msg : string)
| Serving (port : Z) (s : ServerPool).

Section Main.

(** [ioutil.ReadFile]: the content of the file, if it can be read. *)
Variable ReadFile : string -> option string.

(** [json.Unmarshal(data, &config)]: the configuration it leaves in
    [config], if the data is accepted. *)
Variable Unmarshal : string -> Config -> option Config.

(** [url.Parse]: the URL, or the text of the error. *)
Variable Parse : string -> string + url.URL.

(** [server.ListenAndServe] on a port: the error it returns with, when it
    returns (the port cannot be listened on, or serving breaks off);
    nothing while it goes on serving. *)
Variable ListenAndServe : Z -> option string.

(** The loop of [main] over the configured backends. *)
Fixpoint main_range (tokens : list string) (s : ServerPool)
  : string + ServerPool :=
  match tokens with
  | [] => inr s
  | tok :: rest =>
      match Parse tok with
      | inl err => inl err
      | inr serverURL =>
          main_range rest (AddBackend s {| URL := serverURL; Alive := true |})
      end
  end.

Definition main : Startup :=
  let config := {| Port := 3030; Backends := [] |} in
  match ReadFile "config.json" with
  | None => Fatal "Could not load configuration file"
  | Some configString =>
      match Unmarshal configString config with
      | None => Fatal "Invalid configuration file"
      | Some config =>
          if len (Backends config) =? 0
          then Fatal "Please provide one or more backends to load balance"
          else
            match main_range (Backends config)
                    {| backends := []; current := 0 |} with
            | inl err => Fatal err
            | inr s =>
                match ListenAndServe (Port config) with
                | Some err => Fatal err
                | None => Serving (Port config) s
                end
            end
      end
  end.

End Main.

(** ** More observations and predicates *)

(** The delays the handling slept, in order. *)
Fixpoint delays (t : list Event) : list Z :=
  match t with
  | [] => []
  | EvSleep d :: t' => d :: delays t'
  | _ :: t' => delays t'
  end.

(** The upstreams fail the round trips numbered below [k] and answer from
    then on. *)
Definition down_until (k : nat) (n peer : nat) : bool := Nat.leb k n.

(** Control that names a slot of the pool, and has not panicked. *)
Definition control_ok (s : ServerPool) (c : Control) : Prop :=
  match c with
  | CServeHTTP p _ | CErrorHandler p _ => (p < length (backends s))%nat
  | CPanic _ => False
  | CLb _ | CReturn => True
  end.

(** [bs'] is [bs] with some backends marked down: the same endpoints in
    the same slots, and nothing alive that was not alive. *)
Definition marked_down (bs bs' : list Backend) : Prop :=
  Forall2 (fun b b' => URL b' = URL b /\ (Alive b' = true -> Alive b = true))
          bs bs'.

(** An event that carries a request carries one with the counters of [r]. *)
Definition same_counters (r : Request) (e : Event) : Prop :=
  match e with
  | EvLb r' | EvForward _ r' =>
      GetRetryFromContext r' = GetRetryFromContext r /\
      GetAttemptsFromContext r' = GetAttemptsFromContext r
  | _ => True
  end.

(** Control is at a request with the counters of [r], or at none. *)
Definition carries (r : Request) (c : Control) : Prop :=
  match request_of c with
  | Some r' =>
      GetRetryFromContext r' = GetRetryFromContext r /\
      GetAttemptsFromContext r' = GetAttemptsFromContext r
  | None => True
  end.

(** Whether slot [i] of the pool holds a backend that is alive. *)
Definition alive_at (s : ServerPool) (i : nat) : bool :=
  match backends s !! i with
  | Some b => Alive b
  | None => false
  end.

(** The slots of the pool in the order of a full turn that starts one past
    the cursor. *)
Definition scan_order (s : ServerPool) : list nat :=
  (fun k : nat =>
     Z.to_nat ((rotation_start s + Z.of_nat k) mod len (backends s)))
    <$> seq 0 (length (backends s)).


(** * Properties *)

(** ** Arithmetic of the cursor *)

Lemma len_pos {A : Type} (l : list A) : l <> [] -> 0 < len l.
Proof. destruct l; [congruence|]. unfold len. simpl. lia. Qed.

Lemma index_Some {A : Type} (l : list A) (i : Z) :
  0 <= i < len l -> exists x, index l i = Some x /\ l !! Z.to_nat i = Some x.
Proof.
  intros Hi. unfold index, len in *.
  destruct (Z.ltb_spec i 0) as [?|_]; [lia|].
  destruct (lookup_lt_is_Some_2 l (Z.to_nat i)) as [x Hx]; [lia|].
  exists x. by rewrite Hx.
Qed.

(** ** The pool [main] sets up *)

Lemma configure_backends (tokens : list url.URL) :
  configure tokens
  = {| backends := (fun u => {| URL := u; Alive := true |}) <$> tokens;
       current := 0 |}.
Proof.
  unfold configure.
  assert (H : forall s,
             fold_left (fun s u => AddBackend s {| URL := u; Alive := true |})
                       tokens s
             = {| backends := backends s
                              ++ ((fun u => {| URL := u; Alive := true |}) <$> tokens);
                  current := current s |}).
  { induction tokens as [|u tokens IH]; intros [bs c]; simpl.
    - by rewrite app_nil_r.
    - rewrite IH. simpl. by rewrite <- app_assoc. }
  by rewrite H.
Qed.

(** From a configuration that is not empty [main] gets the pool the
    properties below are about: at least one backend, all alive. *)
Lemma configure_invariant (tokens : list url.URL) :
  tokens <> [] ->
  backends (configure tokens) <> [] /\ all_alive (configure tokens) /\
  current (configure tokens) = 0.
Proof.
  intros Hne. rewrite configure_backends. simpl. split; [|split; [|done]].
  - by destruct tokens.
  - intros b (u & -> & _)%list_elem_of_fmap. done.
Qed.

(** ** NextIndex *)

Lemma NextIndex_Returns (s : ServerPool) :
  backends s <> [] ->
  NextIndex s =
  Returns (atomic.AddUint64 (current s) 1 mod len (backends s),
           {| backends := backends s; current := atomic.AddUint64 (current s) 1 |}).
Proof.
  intros Hne. unfold NextIndex.
  pose proof (len_pos _ Hne).
  destruct (Z.eqb_spec (len (backends s)) 0); [lia|done].
Qed.

(** C7. On a pool of at least one backend [NextIndex] returns (it does not
    divide by zero), the cursor it leaves is the old one plus one (modulo
    2^64), the list of backends is untouched, and the value returned is
    that new cursor modulo the length of the pool, an index of the pool. *)
Theorem NextIndex_valid_index (s : ServerPool) (Hlen : 1 <= len (backends s)) :
  exists idx s',
    NextIndex s = Returns (idx, s') /\
    current s' = (current s + 1) mod 2 ^ 64 /\
    backends s' = backends s /\
    idx = current s' mod len (backends s) /\
    0 <= idx < len (backends s).
Proof.
  assert (Hne : backends s <> []).
  { intros E. rewrite E in Hlen. unfold len in Hlen. simpl in Hlen. lia. }
  eexists _, _. split; [apply NextIndex_Returns, Hne|].
  simpl. repeat split; try reflexivity; apply Z.mod_pos_bound; lia.
Qed.

Lemma NextIndex_valid_index_witness :
  exists idx s',
    NextIndex (poolABC (2 ^ 64 - 1)) = Returns (idx, s') /\
    current s' = 0 /\ idx = 0.
Proof.
  destruct (NextIndex_valid_index (poolABC (2 ^ 64 - 1))) as (idx & s' & H & Hc & _ & Hi & _).
  - vm_compute. discriminate.
  - exists idx, s'. split; [exact H|]. rewrite Hi, Hc. split; reflexivity.
Defined.

(** ** MarkBackendStatus *)

Lemma MarkBackendStatus_range_length bs u alive :
  length (MarkBackendStatus_range bs u alive) = length bs.
Proof.
  induction bs as [|b rest IH]; simpl; [done|].
  destruct (String.eqb _ _); simpl; [done|]. by rewrite IH.
Qed.

Lemma MarkBackendStatus_range_no_match bs u alive :
  (forall b, b ∈ bs -> url.String (URL b) <> url.String u) ->
  MarkBackendStatus_range bs u alive = bs.
Proof.
  induction bs as [|b rest IH]; simpl; intros Hno; [done|].
  destruct (String.eqb_spec (url.String (URL b)) (url.String u)) as [E|_].
  - exfalso. apply (Hno b); [left|exact E].
  - f_equal. apply IH. intros b' Hb'. apply Hno. by right.
Qed.

(** The loop rewrites the first slot whose endpoint renders like [u], and
    that slot only. *)
Lemma MarkBackendStatus_range_first bs u alive i b :
  bs !! i = Some b ->
  url.String (URL b) = url.String u ->
  (forall j b', (j < i)%nat -> bs !! j = Some b' ->
                url.String (URL b') <> url.String u) ->
  MarkBackendStatus_range bs u alive = <[i := SetAlive b alive]> bs.
Proof.
  revert i. induction bs as [|b0 rest IH]; intros i Hi Hu Hfirst; [done|].
  simpl. destruct i as [|i]; simpl in Hi.
  - injection Hi as ->. rewrite (proj2 (String.eqb_eq _ _) Hu). done.
  - destruct (String.eqb_spec (url.String (URL b0)) (url.String u)) as [E|_].
    + exfalso. apply (Hfirst 0%nat b0); [lia|done|exact E].
    + simpl. f_equal. apply IH; [done|done|].
      intros j b' Hj Hb'. apply (Hfirst (S j) b'); [lia|done].
Qed.

(** Some slot matches exactly when a first matching slot exists. *)
Lemma first_match_exists (bs : list Backend) (u : url.URL) i b :
  bs !! i = Some b ->
  url.String (URL b) = url.String u ->
  exists k bk,
    (k <= i)%nat /\ bs !! k = Some bk /\
    url.String (URL bk) = url.String u /\
    (forall j b', (j < k)%nat -> bs !! j = Some b' ->
                  url.String (URL b') <> url.String u).
Proof.
  revert i. induction bs as [|b0 rest IH]; intros i Hi Hu; [done|].
  destruct (String.eqb_spec (url.String (URL b0)) (url.String u)) as [E|NE].
  - exists 0%nat, b0. repeat split; [lia|done|]. intros; lia.
  - destruct i as [|i]; simpl in Hi; [congruence|].
    destruct (IH i Hi Hu) as (k & bk & Hk & Hbk & Hbku & Hmin).
    exists (S k), bk. repeat split; [lia|done|done|].
    intros [|j] b' Hj Hb'; simpl in Hb'; [congruence|].
    apply (Hmin j b'); [lia|done].
Qed.

(** C9. [MarkBackendStatus] never touches the cursor nor the number of
    backends.  With an endpoint that no backend of the pool has, the pool
    is left as it was.  When some backend has the endpoint, one slot [k]
    holding it gets its liveness flag set, keeping its URL, and every other
    slot holds the backend it held before. *)
Theorem MarkBackendStatus_frame (s : ServerPool) (u : url.URL) (alive : bool) :
  current (MarkBackendStatus s u alive) = current s /\
  length (backends (MarkBackendStatus s u alive)) = length (backends s) /\
  ((forall b, b ∈ backends s -> url.String (URL b) <> url.String u) ->
   MarkBackendStatus s u alive = s) /\
  ((exists b, b ∈ backends s /\ url.String (URL b) = url.String u) ->
   exists k bk,
     backends s !! k = Some bk /\
     url.String (URL bk) = url.String u /\
     backends (MarkBackendStatus s u alive) !! k
       = Some {| URL := URL bk; Alive := alive |} /\
     forall j, j <> k ->
       backends (MarkBackendStatus s u alive) !! j = backends s !! j).
Proof.
  split; [done|]. split; [apply MarkBackendStatus_range_length|]. split.
  - intros Hno. destruct s as [bs c]. unfold MarkBackendStatus. simpl in *.
    by rewrite MarkBackendStatus_range_no_match.
  - intros (b & Hb & Hu). apply list_elem_of_lookup in Hb as [i Hi].
    destruct (first_match_exists _ _ _ _ Hi Hu) as (k & bk & _ & Hbk & Hbku & Hmin).
    exists k, bk. simpl.
    rewrite (MarkBackendStatus_range_first _ _ alive _ _ Hbk Hbku Hmin).
    repeat split; [done|done| |].
    + apply list_lookup_insert_eq. by eapply lookup_lt_Some.
    + intros j Hj. by apply list_lookup_insert_ne.
Qed.

Lemma MarkBackendStatus_frame_witness :
  MarkBackendStatus poolAB urlC false = poolAB /\
  exists k bk,
    backends poolAB !! k = Some bk /\
    url.String (URL bk) = url.String urlB /\
    backends (MarkBackendStatus poolAB urlB false) !! k
      = Some {| URL := URL bk; Alive := false |} /\
    forall j, j <> k ->
      backends (MarkBackendStatus poolAB urlB false) !! j = backends poolAB !! j.
Proof.
  split.
  - apply (MarkBackendStatus_frame poolAB urlC false).
    intros b Hb. simpl in Hb.
    repeat (apply elem_of_cons in Hb as [->|Hb]; [simpl; discriminate|]).
    by apply elem_of_nil in Hb.
  - apply (MarkBackendStatus_frame poolAB urlB false).
    exists (mkBackend urlB true). split; [|reflexivity].
    simpl. right. left.
Defined.

(** C10. When two slots [i < j] of the pool hold the same endpoint,
    [MarkBackendStatus] on that endpoint leaves the later slot [j] as it
    was: the one slot [k] it rewrites is the first slot in configuration
    order that holds the endpoint, so [k <= i]. *)
Theorem MarkBackendStatus_first_duplicate_only
    (s : ServerPool) (u : url.URL) (alive : bool) (i j : nat) (bi bj : Backend)
    (Hi : backends s !! i = Some bi) (Hj : backends s !! j = Some bj)
    (Hlt : (i < j)%nat)
    (Hui : url.String (URL bi) = url.String u)
    (Huj : url.String (URL bj) = url.String u) :
  backends (MarkBackendStatus s u alive) !! j = Some bj /\
  exists k bk,
    (k <= i)%nat /\
    backends s !! k = Some bk /\
    url.String (URL bk) = url.String u /\
    (forall m bm, (m < k)%nat -> backends s !! m = Some bm ->
                  url.String (URL bm) <> url.String u) /\
    backends (MarkBackendStatus s u alive) = <[k := SetAlive bk alive]> (backends s).
Proof.
  destruct (first_match_exists _ _ _ _ Hi Hui) as (k & bk & Hk & Hbk & Hbku & Hmin).
  pose proof (MarkBackendStatus_range_first _ _ alive _ _ Hbk Hbku Hmin) as E.
  split.
  - simpl. rewrite E. rewrite list_lookup_insert_ne; [done|lia].
  - exists k, bk. by repeat split.
Qed.

Lemma MarkBackendStatus_first_duplicate_only_witness :
  backends (MarkBackendStatus poolABA urlA false) !! 2%nat
    = Some (mkBackend urlA true) /\
  backends (MarkBackendStatus poolABA urlA false) !! 0%nat
    = Some (mkBackend urlA false).
Proof.
  split.
  - eapply (MarkBackendStatus_first_duplicate_only poolABA urlA false 0 2
              (mkBackend urlA true) (mkBackend urlA true));
      [reflexivity|reflexivity|lia|reflexivity|reflexivity].
  - reflexivity.
Defined.

(** ** GetNextPeer *)

(** What the scan returns: a slot that is alive, or nothing after [n] dead
    slots in a row; it never panics and never touches the backends. *)
Lemma GetNextPeer_scan_spec (s : ServerPool) (next : Z) (n : nat) :
  backends s <> [] ->
  forall i, 0 <= i ->
  exists p s',
    GetNextPeer_scan s next i n = Returns (p, s') /\
    backends s' = backends s /\
    match p with
    | Some j =>
        exists b, backends s !! j = Some b /\ Alive b = true
    | None =>
        forall k b, (k < n)%nat ->
          backends s !! Z.to_nat ((i + Z.of_nat k) mod len (backends s)) = Some b ->
          Alive b = false
    end.
Proof.
  intros Hne. pose proof (len_pos _ Hne) as HN.
  induction n as [|n IH]; intros i Hi; simpl.
  - exists None, s. repeat split. intros; lia.
  - rewrite Z.rem_mod_nonneg by lia.
    pose proof (Z.mod_pos_bound i (len (backends s)) HN) as Hidx.
    destruct (index_Some (backends s) _ Hidx) as (b & -> & Hb).
    unfold IsAlive. destruct (Alive b) eqn:Hal.
    + eexists (Some _), _. split; [reflexivity|]. split.
      * by destruct (i =? next).
      * by exists b.
    + destruct (IH (i + 1)) as (p & s' & Hrun & Hbs & Hp); [lia|].
      exists p, s'. split; [exact Hrun|]. split; [exact Hbs|].
      destruct p as [j|]; [exact Hp|].
      intros [|k] b' Hk Hb'.
      * rewrite Z.add_0_r in Hb'. congruence.
      * apply (Hp k b'); [lia|].
        by replace (i + 1 + Z.of_nat k) with (i + Z.of_nat (S k)) by lia.
Qed.

(** A full cycle from any start meets every slot. *)
Lemma full_cycle_covers (N i : Z) (j : nat) :
  0 < N -> (Z.of_nat j < N) ->
  exists k, (Z.of_nat k < N) /\ Z.to_nat ((i + Z.of_nat k) mod N) = j.
Proof.
  intros HN Hj. exists (Z.to_nat ((Z.of_nat j - i) mod N)).
  pose proof (Z.mod_pos_bound (Z.of_nat j - i) N HN).
  rewrite Z2Nat.id by lia. split; [lia|].
  rewrite Zplus_mod_idemp_r.
  replace (i + (Z.of_nat j - i)) with (Z.of_nat j) by lia.
  rewrite Z.mod_small by lia. lia.
Qed.

Lemma GetNextPeer_unfold (s : ServerPool) :
  backends s <> [] ->
  GetNextPeer s =
  let c := atomic.AddUint64 (current s) 1 in
  GetNextPeer_scan {| backends := backends s; current := c |}
    (c mod len (backends s)) (c mod len (backends s)) (length (backends s)).
Proof.
  intros Hne. unfold GetNextPeer. rewrite NextIndex_Returns by done.
  simpl. f_equal. unfold len. lia.
Qed.

(** C4. On a pool of at least one backend [GetNextPeer] returns, leaving
    the backends as they are, and: a backend it returns has its liveness
    flag set; when some backend of the pool is alive it returns one; when
    none is alive it returns nil. *)
Theorem GetNextPeer_skips_dead (s : ServerPool) (Hlen : backends s <> []) :
  exists p s',
    GetNextPeer s = Returns (p, s') /\
    backends s' = backends s /\
    (forall j, p = Some j -> exists b, backends s !! j = Some b /\ Alive b = true) /\
    ((exists b, b ∈ backends s /\ Alive b = true) -> exists j, p = Some j) /\
    ((forall b, b ∈ backends s -> Alive b = false) -> p = None).
Proof.
  rewrite GetNextPeer_unfold by done. simpl.
  set (c := atomic.AddUint64 (current s) 1).
  set (s1 := {| backends := backends s; current := c |}).
  pose proof (len_pos _ Hlen) as HN.
  destruct (GetNextPeer_scan_spec s1 (c mod len (backends s)) (length (backends s)) Hlen
              (c mod len (backends s))) as (p & s' & Hrun & Hbs & Hp).
  { apply Z.mod_pos_bound; lia. }
  exists p, s'. split; [exact Hrun|]. split; [exact Hbs|]. simpl in Hp.
  split; [|split].
  - intros j ->. exact Hp.
  - intros (b & Hb & Hal). destruct p as [j|]; [by exists j|].
    apply list_elem_of_lookup in Hb as [j Hj].
    pose proof (lookup_lt_Some _ _ _ Hj) as Hjlt.
    destruct (full_cycle_covers (len (backends s)) (c mod len (backends s)) j)
      as (k & Hk & Hkj); [lia|unfold len; lia|].
    assert (Alive b = false); [|congruence].
    apply (Hp k b); [unfold len in Hk; lia|]. by rewrite Hkj.
  - intros Hdead. destruct p as [j|]; [|done].
    destruct Hp as (b & Hb & Hal).
    rewrite (Hdead b) in Hal; [done|]. by eapply list_elem_of_lookup_2.
Qed.

Lemma GetNextPeer_skips_dead_witness :
  exists p s',
    GetNextPeer (MarkBackendStatus poolAB urlB false) = Returns (p, s') /\
    (forall j, p = Some j ->
       exists b, backends (MarkBackendStatus poolAB urlB false) !! j = Some b /\
                 Alive b = true).
Proof.
  destruct (GetNextPeer_skips_dead (MarkBackendStatus poolAB urlB false))
    as (p & s' & H & _ & Hal & _).
  - simpl. discriminate.
  - exists p, s'. split; [exact H|exact Hal].
Defined.

(** ** Rotation over a pool that is all alive *)

(** With every backend alive the scan stops at its first slot and leaves
    the cursor where [NextIndex] put it. *)
Lemma GetNextPeer_all_alive (s : ServerPool) :
  backends s <> [] -> all_alive s ->
  GetNextPeer s =
  Returns (Some (Z.to_nat (atomic.AddUint64 (current s) 1 mod len (backends s))),
           {| backends := backends s; current := atomic.AddUint64 (current s) 1 |}).
Proof.
  intros Hne Hal. rewrite GetNextPeer_unfold by done. simpl.
  pose proof (len_pos _ Hne) as HN. unfold all_alive in Hal.
  destruct (backends s) as [|b0 rest] eqn:Ebs; [done|].
  cbn [length GetNextPeer_scan backends].
  set (c := atomic.AddUint64 (current s) 1).
  pose proof (Z.mod_pos_bound c (len (b0 :: rest)) HN) as Hidx.
  rewrite Z.rem_mod_nonneg by lia.
  rewrite Z.mod_small by lia.
  destruct (index_Some (b0 :: rest) _ Hidx) as (b & -> & Hb).
  unfold IsAlive. rewrite (Hal b) by (by eapply list_elem_of_lookup_2).
  by rewrite Z.eqb_refl.
Qed.

Lemma select_n_all_alive (n : nat) :
  forall s, backends s <> [] -> all_alive s ->
  exists s',
    select_n n s = Returns (pick s <$> seq 0 n, s') /\
    backends s' = backends s.
Proof.
  induction n as [|n IH]; intros s Hne Hal; simpl.
  - by exists s.
  - rewrite GetNextPeer_all_alive by done.
    set (s1 := {| backends := backends s;
                  current := atomic.AddUint64 (current s) 1 |}).
    destruct (IH s1) as (s' & -> & Hbs); [done|done|].
    exists s'. split; [|done]. do 2 f_equal.
    change (seq 0 (S n)) with (0%nat :: seq 1 n). simpl. f_equal.
    + unfold pick, atomic.AddUint64. by rewrite Z.add_0_r.
    + rewrite <- fmap_S_seq, <- list_fmap_compose.
      apply list_fmap_ext. intros _ k _. unfold pick, compose. simpl.
      unfold atomic.AddUint64. do 3 f_equal.
      rewrite <- Z.add_assoc, Zplus_mod_idemp_l. f_equal. lia.
Qed.

(** Unless the cursor wraps on the way, the [k]-th pick is [k] slots past
    the start of the rotation. *)
Lemma pick_rotation (s : ServerPool) (k : nat) :
  backends s <> [] ->
  (0 <= current s /\ current s + len (backends s) + 1 < 2 ^ 64) \/
  (len (backends s) | 2 ^ 64) ->
  (k <= length (backends s))%nat ->
  pick s k =
  Some (Z.to_nat ((rotation_start s + Z.of_nat k) mod len (backends s))).
Proof.
  intros Hne Hwrap Hk. pose proof (len_pos _ Hne) as HN.
  unfold pick, rotation_start, uint64_modulus. do 2 f_equal.
  rewrite Zplus_mod_idemp_l.
  destruct Hwrap as [[H0 Hlt]|Hdiv].
  - rewrite (Z.mod_small _ (2 ^ 64)); [done|]. unfold len in *. lia.
  - by rewrite Z.mod_mod_divide.
Qed.

Lemma rotation_is_permutation (N st : Z) (n : nat) :
  N = Z.of_nat n -> 0 < N ->
  (fun k : nat => Some (Z.to_nat ((st + Z.of_nat k) mod N))) <$> seq 0 n
    ≡ₚ Some <$> seq 0 n.
Proof.
  intros HNn HN.
  rewrite (list_fmap_compose (fun k : nat => Z.to_nat ((st + Z.of_nat k) mod N)) Some).
  apply fmap_Permutation.
  apply NoDup_Permutation.
  - apply NoDup_fmap_2_strong; [|apply NoDup_seq].
    intros x y Hx%elem_of_seq Hy%elem_of_seq Hxy.
    apply Z2Nat.inj in Hxy; try (apply Z.mod_pos_bound; lia).
    assert (E : (Z.of_nat x - Z.of_nat y) mod N = 0).
    { rewrite Zminus_mod.
      replace (Z.of_nat x) with (st + Z.of_nat x - st) at 1 by lia.
      replace (Z.of_nat y) with (st + Z.of_nat y - st) at 1 by lia.
      rewrite (Zminus_mod (st + Z.of_nat x)), (Zminus_mod (st + Z.of_nat y)), Hxy.
      rewrite Z.sub_diag. apply Zmod_0_l. }
    apply Z.mod_divide in E; [|lia]. destruct E as [q Hq].
    assert (q = 0) by nia. lia.
  - apply NoDup_seq.
  - intros j. rewrite list_elem_of_fmap, elem_of_seq. split.
    + intros (k & -> & _). pose proof (Z.mod_pos_bound (st + Z.of_nat k) N HN). lia.
    + intros Hj. destruct (full_cycle_covers N st j) as (k & Hk & Hkj); [lia|lia|].
      exists k. split; [done|]. apply elem_of_seq. lia.
Qed.

(** C3, as amended.  On a pool of [N >= 1] backends, all alive, whose
    cursor does not wrap around 2^64 within the next [N + 1] selections (or
    whose length divides 2^64), [N + 1] selections in a row return every
    slot once in the first [N], in configuration order from one past the
    cursor, and the first of them again at the end. *)
Theorem GetNextPeer_round_robin (s : ServerPool)
    (Hlen : backends s <> [])
    (Halive : all_alive s)
    (Hwrap : (0 <= current s /\ current s + len (backends s) + 1 < 2 ^ 64) \/
             (len (backends s) | 2 ^ 64)) :
  round_robin s.
Proof.
  pose proof (len_pos _ Hlen) as HN.
  destruct (select_n_all_alive (S (length (backends s))) s Hlen Halive)
    as (s' & Hsel & _).
  unfold round_robin. eexists _, s'. split; [exact Hsel|].
  assert (Hpick : forall k, (k <= length (backends s))%nat ->
            (pick s <$> seq 0 (S (length (backends s)))) !! k =
            Some (Some (Z.to_nat ((rotation_start s + Z.of_nat k)
                                  mod len (backends s))))).
  { intros k Hk. rewrite list_lookup_fmap, lookup_seq_lt by lia. simpl.
    by rewrite pick_rotation. }
  split; [|split].
  - rewrite <- fmap_take, take_seq, Nat.min_l by lia.
    rewrite <- (rotation_is_permutation (len (backends s)) (rotation_start s))
      by (done || lia).
    erewrite list_fmap_ext; [reflexivity|].
    intros i k Hk%lookup_seq. simpl in Hk. apply pick_rotation; [done|done|lia].
  - intros k Hk. apply Hpick. lia.
  - rewrite !Hpick by lia. do 3 f_equal.
    rewrite Z.add_0_r. unfold len.
    rewrite <- (Z.mul_1_l (Z.of_nat (length (backends s)))) at 1.
    rewrite Z.mod_add by (unfold len in HN; lia).
    unfold rotation_start. by rewrite Z.mod_mod by (unfold len in HN; lia).
Qed.

Lemma GetNextPeer_round_robin_witness :
  round_robin (poolABC 0) /\
  round_robin (mkServerPool [mkBackend urlA true; mkBackend urlB true] (2 ^ 64 - 1)).
Proof.
  split; apply GetNextPeer_round_robin.
  - discriminate.
  - intros b Hb. simpl in Hb.
    repeat (apply elem_of_cons in Hb as [->|Hb]; [reflexivity|]).
    by apply elem_of_nil in Hb.
  - left. vm_compute. split; [discriminate|reflexivity].
  - discriminate.
  - intros b Hb. simpl in Hb.
    repeat (apply elem_of_cons in Hb as [->|Hb]; [reflexivity|]).
    by apply elem_of_nil in Hb.
  - right. exists (2 ^ 63). reflexivity.
Defined.

(** C3, as stated, fails when the cursor wraps: from the cursor 2^64 - 2
    three selections over [A, B, C] return A, A, B: the slot of A twice
    and the slot of C not at all. *)
Lemma round_robin_fails_at_wrap : ~ round_robin (poolABC (2 ^ 64 - 2)).
Proof.
  intros (picks & s' & Hsel & Hperm & _).
  vm_compute in Hsel. injection Hsel as <- _.
  assert (Hin : Some 2%nat ∈ take 3 [Some 0%nat; Some 0%nat; Some 1%nat; Some 2%nat]).
  { change (length (backends (poolABC (2 ^ 64 - 2)))) with 3%nat in Hperm.
    rewrite Hperm. simpl. do 2 right. left. }
  simpl in Hin.
  repeat (apply elem_of_cons in Hin as [Hin|Hin]; [discriminate|]).
  by apply elem_of_nil in Hin.
Qed.

(** ** HealthCheck *)

(** The dial [isBackendAlive] makes for a backend. *)
Lemma isBackendAlive_dial DialTimeout k u :
  isBackendAlive DialTimeout k u
  = (mkDial "tcp" (url.Host u) (2 * time.Second),
     DialTimeout k (mkDial "tcp" (url.Host u) (2 * time.Second))).
Proof. unfold isBackendAlive. by destruct (DialTimeout _ _). Qed.

Lemma HealthCheck_range_spec DialTimeout bs :
  forall k,
  HealthCheck_range DialTimeout k bs =
  ((fun b => mkDial "tcp" (url.Host (URL b)) (2 * time.Second)) <$> bs,
   imap (fun i b =>
           {| URL := URL b;
              Alive := DialTimeout (k + i)%nat
                         (mkDial "tcp" (url.Host (URL b)) (2 * time.Second)) |})
        bs).
Proof.
  induction bs as [|b rest IH]; intros k; [done|].
  cbn [HealthCheck_range]. rewrite isBackendAlive_dial, IH.
  rewrite fmap_cons, imap_cons. rewrite Nat.add_0_r. do 2 f_equal.
  apply imap_ext. intros i b' _. simpl. do 2 f_equal. lia.
Qed.

(** C8. One pass of [HealthCheck] over any pool, against any network:
    the dials made are, in the order of the pool, one TCP dial per backend
    to the host of its URL with a timeout of two seconds; afterwards the
    [k]-th backend has its URL and, as liveness flag, the verdict of the
    [k]-th dial, whatever the verdicts of the other dials; the cursor is
    untouched. *)
Theorem HealthCheck_probes_every_backend
    (DialTimeout : nat -> Dial -> bool) (s : ServerPool) :
  let probe b := mkDial "tcp" (url.Host (URL b)) (2 * 1000000000) in
  fst (HealthCheck DialTimeout s) = probe <$> backends s /\
  backends (snd (HealthCheck DialTimeout s))
    = imap (fun k b => {| URL := URL b; Alive := DialTimeout k (probe b) |})
           (backends s) /\
  current (snd (HealthCheck DialTimeout s)) = current s.
Proof.
  unfold HealthCheck. rewrite HealthCheck_range_spec. simpl. done.
Qed.

(** ** The counters of a request *)

Lemma Value_WithValue_contextKey ctx c v n :
  context.Value (context.WithValue ctx (contextKey c) v) (context.of_int n)
  = context.Value ctx (context.of_int n).
Proof.
  unfold context.WithValue, contextKey. cbn [context.Value].
  by rewrite bool_decide_eq_false_2.
Qed.

(** A value stored under [contextKey(Retry)] or [contextKey(Attempts)] is
    not what the two readers look up: they use the [int] constants as
    keys. *)
Lemma GetRetryFromContext_WithValue r c v :
  GetRetryFromContext
    (WithContext r (context.WithValue (Context r) (contextKey c) v))
  = GetRetryFromContext r.
Proof.
  unfold GetRetryFromContext, WithContext. cbn [Context].
  by rewrite Value_WithValue_contextKey.
Qed.

Lemma GetAttemptsFromContext_WithValue r c v :
  GetAttemptsFromContext
    (WithContext r (context.WithValue (Context r) (contextKey c) v))
  = GetAttemptsFromContext r.
Proof.
  unfold GetAttemptsFromContext, WithContext. cbn [Context].
  by rewrite Value_WithValue_contextKey.
Qed.

Lemma inbound_Value r n :
  inbound r = true -> context.Value (Context r) (context.of_int n) = None.
Proof.
  unfold inbound. induction (Context r) as [|[k v] ctx IH]; simpl; [done|].
  intros [Hk Hctx]%andb_prop.
  rewrite bool_decide_eq_false_2; [by apply IH|].
  intros ->. discriminate.
Qed.

(** C6. Each reader has its own default.  A request whose context carries
    no [int] under the key [Attempts] reads as attempt 1, whatever else the
    context holds; and a request whose context carries no [int] under the
    key [Retry] reads as retry 0, whatever else the context holds. *)
Theorem counters_default (r : Request) :
  ((forall n, context.Value (Context r) (context.of_int Attempts)
              <> Some (context.of_int n)) ->
   GetAttemptsFromContext r = 1) /\
  ((forall n, context.Value (Context r) (context.of_int Retry)
              <> Some (context.of_int n)) ->
   GetRetryFromContext r = 0).
Proof.
  unfold GetAttemptsFromContext, GetRetryFromContext. split.
  - intros Ha.
    destruct (context.Value _ (context.of_int Attempts)) as [[n| |]|] eqn:E;
      try done. by destruct (Ha n).
  - intros Hr.
    destruct (context.Value _ (context.of_int Retry)) as [[n| |]|] eqn:E;
      try done. by destruct (Hr n).
Qed.

Lemma counters_default_witness :
  (GetAttemptsFromContext fresh_request = 1 /\
   GetRetryFromContext fresh_request = 0) /\
  (GetAttemptsFromContext retried_request = 1 /\
   GetRetryFromContext retried_request = 3) /\
  (GetRetryFromContext exhausted_request = 0 /\
   GetAttemptsFromContext exhausted_request = 4).
Proof.
  split; [split|split; split].
  - apply (counters_default fresh_request).
    intros n H; vm_compute in H; discriminate H.
  - apply (counters_default fresh_request).
    intros n H; vm_compute in H; discriminate H.
  - apply (counters_default retried_request).
    intros n H; vm_compute in H; discriminate H.
  - reflexivity.
  - apply (counters_default exhausted_request).
    intros n H; vm_compute in H; discriminate H.
  - reflexivity.
Defined.

(** ** Runs of the dispatcher *)

Lemma routing_entries_app t1 t2 :
  routing_entries (t1 ++ t2) = (routing_entries t1 + routing_entries t2)%nat.
Proof.
  induction t1 as [|e t1 IH]; simpl; [done|]. destruct e; simpl; lia.
Qed.

Lemma forwarded_to_app t1 t2 :
  forwarded_to (t1 ++ t2) = forwarded_to t1 ++ forwarded_to t2.
Proof.
  induction t1 as [|e t1 IH]; simpl; [done|]. destruct e; simpl; congruence.
Qed.

Lemma run_add transport n m w c :
  run transport (n + m) w c
  = run transport m (fst (run transport n w c)) (snd (run transport n w c)).
Proof.
  revert w c. induction n as [|n IH]; intros w c; simpl; [done|].
  destruct (step transport w c) as [w1 c1]. apply IH.
Qed.

Lemma run_CReturn transport n w : run transport n w CReturn = (w, CReturn).
Proof. induction n as [|n IH]; simpl; done. Qed.

Lemma run_CPanic transport n w msg :
  run transport n w (CPanic msg) = (w, CPanic msg).
Proof. induction n as [|n IH]; simpl; done. Qed.

(** No transfer of control changes what [GetRetryFromContext] reads from
    the request: the retry branch stores its count under another key, and
    the failover branch does not store a retry count at all. *)
Lemma step_keeps_retry_count transport w c w' c' r r' :
  step transport w c = (w', c') ->
  request_of c = Some r -> request_of c' = Some r' ->
  GetRetryFromContext r' = GetRetryFromContext r.
Proof.
  destruct c as [r0|p r0|p r0| |msg]; simpl; intros Hstep Hr Hr';
    try discriminate; injection Hr as ->.
  - unfold lb in Hstep. destruct (GetAttemptsFromContext r >? 3).
    + by injection Hstep as <- <-.
    + destruct (GetNextPeer _) as [[[j|] s']|msg];
        injection Hstep as <- <-; simpl in Hr'; congruence.
  - unfold ServeHTTP in Hstep. destruct (transport _ _);
      injection Hstep as <- <-; simpl in Hr'; congruence.
  - unfold ErrorHandler in Hstep. destruct (GetRetryFromContext r <? 3).
    + injection Hstep as <- <-. injection Hr' as <-.
      apply GetRetryFromContext_WithValue.
    + destruct (backends (pool w) !! p); injection Hstep as <- <-;
        [|discriminate].
      injection Hr' as <-. apply GetRetryFromContext_WithValue.
Qed.

Lemma run_keeps_retry_count transport n :
  forall w c w' c' r r',
  run transport n w c = (w', c') ->
  request_of c = Some r -> request_of c' = Some r' ->
  GetRetryFromContext r' = GetRetryFromContext r.
Proof.
  induction n as [|n IH]; intros w c w' c' r r' Hrun Hr Hr'; simpl in Hrun.
  - injection Hrun as <- <-. congruence.
  - destruct (step transport w c) as [w1 c1] eqn:Hstep.
    destruct (request_of c1) as [r1|] eqn:Hr1.
    + rewrite (IH _ _ _ _ _ _ Hrun Hr1 Hr').
      by eapply step_keeps_retry_count.
    + destruct c1; try discriminate.
      * rewrite run_CReturn in Hrun. by injection Hrun as <- <-.
      * rewrite run_CPanic in Hrun. by injection Hrun as <- <-.
Qed.

Lemma step_past_lb transport w c w' c' :
  past_lb c -> step transport w c = (w', c') ->
  past_lb c' /\ routing_entries (trace w') = routing_entries (trace w).
Proof.
  destruct c as [r|p r|p r| |msg]; simpl; intros Hc Hstep; try done.
  - unfold ServeHTTP in Hstep. destruct (transport _ _);
      injection Hstep as <- <-; simpl;
      rewrite ?routing_entries_app; simpl; split; (done || lia).
  - unfold ErrorHandler in Hstep.
    destruct (Z.ltb_spec (GetRetryFromContext r) 3) as [_|?]; [|lia].
    injection Hstep as <- <-. simpl.
    rewrite GetRetryFromContext_WithValue, routing_entries_app. simpl.
    split; (done || lia).
  - by injection Hstep as <- <-.
  - by injection Hstep as <- <-.
Qed.

Lemma run_past_lb transport n :
  forall w c, past_lb c ->
  past_lb (snd (run transport n w c)) /\
  routing_entries (trace (fst (run transport n w c))) = routing_entries (trace w).
Proof.
  induction n as [|n IH]; intros w c Hc; simpl; [done|].
  destruct (step transport w c) as [w1 c1] eqn:Hstep.
  destruct (step_past_lb _ _ _ _ _ Hc Hstep) as [Hc1 E1].
  destruct (IH w1 c1 Hc1) as [Hc' E']. split; [done|congruence].
Qed.

(** A request that reads a retry count below 3 enters [lb] once. *)
Lemma lb_entered_once transport n w r :
  GetRetryFromContext r < 3 ->
  routing_entries (trace (fst (run transport (S n) w (CLb r))))
  = S (routing_entries (trace w)).
Proof.
  intros Hr. simpl. destruct (lb w r) as [w1 c1] eqn:Hlb.
  assert (past_lb c1 /\ routing_entries (trace w1) = S (routing_entries (trace w)))
    as [Hc1 E1].
  { unfold lb in Hlb. destruct (GetAttemptsFromContext r >? 3).
    - injection Hlb as <- <-. simpl. rewrite !routing_entries_app. simpl.
      split; (done || lia).
    - destruct (GetNextPeer _) as [[[j|] s']|msg]; injection Hlb as <- <-;
        simpl; rewrite ?routing_entries_app; simpl; split; (done || lia). }
  destruct (run_past_lb transport n w1 c1 Hc1) as [_ E]. congruence.
Qed.

(** The attempt number the failover branch stores is stored under
    [contextKey(Attempts)], which [lb] does not read.  The server hands in
    no request that reads a retry count of 3 or more; on such a request the
    handlers of five failing backends pass it on from one to the next, and
    [lb] is entered six times, reading attempt 1 each time, until no
    backend is left alive. *)
Remark attempts_ceiling_not_reached :
  let '(w, c) := run all_down 20 (mkWorld pool5 0 []) (CLb retried_request) in
  c = CReturn /\
  routing_entries (trace w) = 6%nat /\
  forwarded_to (trace w) = [1; 2; 3; 4; 0]%nat /\
  Forall (fun e => match e with
                   | EvLb r => GetAttemptsFromContext r = 1
                   | _ => True
                   end) (trace w).
Proof.
  vm_compute. repeat split. repeat constructor.
Qed.

(** One failed retry leads to the next: with no upstream answering, the
    handler of slot [p] on a request that reads a retry count below 3 is
    back two transfers later, on a request that reads the same count. *)
Lemma ErrorHandler_retry_round w p r :
  GetRetryFromContext r < 3 ->
  exists r',
    run all_down 2 w (CErrorHandler p r)
    = ({| pool := pool w; forwards := S (forwards w);
          trace := (trace w ++ [EvSleep (10 * time.Millisecond)])
                   ++ [EvForward p r'] |},
       CErrorHandler p r') /\
    GetRetryFromContext r' = GetRetryFromContext r.
Proof.
  intros Hr. eexists. simpl. unfold ErrorHandler.
  destruct (Z.ltb_spec (GetRetryFromContext r) 3) as [_|?]; [|lia].
  unfold ServeHTTP, all_down. simpl. split; [reflexivity|].
  apply GetRetryFromContext_WithValue.
Qed.

Lemma ErrorHandler_retry_rounds k :
  forall w p r,
  GetRetryFromContext r < 3 ->
  exists w' r',
    run all_down (2 * k) w (CErrorHandler p r) = (w', CErrorHandler p r') /\
    GetRetryFromContext r' = GetRetryFromContext r /\
    pool w' = pool w /\
    routing_entries (trace w') = routing_entries (trace w) /\
    forwarded_to (trace w') = forwarded_to (trace w) ++ repeat p k.
Proof.
  induction k as [|k IH]; intros w p r Hr.
  - exists w, r. simpl. by rewrite app_nil_r.
  - destruct (ErrorHandler_retry_round w p r Hr) as (r1 & Hrun1 & Hr1).
    replace (2 * S k)%nat with (2 + 2 * k)%nat by lia.
    rewrite run_add, Hrun1. cbn [fst snd].
    set (w1 := {| pool := pool w; forwards := S (forwards w);
                  trace := (trace w ++ [EvSleep (10 * time.Millisecond)])
                           ++ [EvForward p r1] |}).
    destruct (IH w1 p r1 ltac:(lia)) as (w' & r' & Hrun & Hr' & Hp & Hre & Hfw).
    exists w', r'. split; [exact Hrun|]. split; [congruence|].
    split; [by rewrite Hp|]. split.
    + rewrite Hre. simpl. rewrite !routing_entries_app. simpl. lia.
    + rewrite Hfw. simpl. rewrite !forwarded_to_app. simpl.
      rewrite app_nil_r, <- app_assoc. done.
Qed.

(** C1 on the code.  A request fresh from the server, over the pool
    [A, B] with both alive, when no upstream answers: for every [k], after
    [2k + 2] transfers of control the request has been sent [k + 1] times
    to the one slot chosen first, [lb] was entered once, both backends are
    still marked alive, and the error handler is about to run again on a
    request from which it reads the retry count 0.  The handler never gets
    to its failover branch. *)
Theorem ErrorHandler_retries_without_bound (k : nat) :
  exists w r,
    run all_down (2 * k + 2) worldAB (CLb fresh_request)
      = (w, CErrorHandler 1 r) /\
    GetRetryFromContext r = 0 /\
    forwarded_to (trace w) = repeat 1%nat (S k) /\
    routing_entries (trace w) = 1%nat /\
    backends (pool w) = backends poolAB.
Proof.
  replace (2 * k + 2)%nat with (2 + 2 * k)%nat by lia. rewrite run_add.
  change (run all_down 2 worldAB (CLb fresh_request))
    with (mkWorld (mkServerPool (backends poolAB) 1) 1
            [EvLb fresh_request; EvForward 1 fresh_request],
          CErrorHandler 1 fresh_request).
  cbn [fst snd].
  edestruct (ErrorHandler_retry_rounds k) as (w & r & Hrun & Hr & Hp & Hre & Hfw);
    [|exists w, r; split; [exact Hrun|]].
  - vm_compute. reflexivity.
  - rewrite Hr, Hp, Hre, Hfw. repeat split.
Qed.

(** On failover the handler has read a retry count of 3 or more, and the
    request it hands to [lb] reads the same count. *)
Lemma ErrorHandler_failover w peer r w1 r1 :
  ErrorHandler w peer r = (w1, CLb r1) ->
  3 <= GetRetryFromContext r /\
  GetRetryFromContext r1 = GetRetryFromContext r.
Proof.
  unfold ErrorHandler.
  destruct (Z.ltb_spec (GetRetryFromContext r) 3) as [?|Hge]; [discriminate|].
  destruct (backends (pool w) !! peer) as [b|]; [|discriminate].
  intros [= <- <-]. split; [lia|]. apply GetRetryFromContext_WithValue.
Qed.

(** The handler of slot 1 ([B]) on a request that reads the retry count 3,
    which the server never hands in, when no upstream answers: [B] is
    marked down, [A] is tried once and marked down without a retry, and
    the client gets the 503 of a pool with nothing alive. *)
Example failover_without_retry :
  exists r1 r2 w,
    run all_down 5 worldAB (CErrorHandler 1 retried_request) = (w, CReturn) /\
    trace w = [EvLb r1; EvForward 0 r1; EvLb r2;
               EvError "Service not available" 503] /\
    GetRetryFromContext r1 = 3 /\
    Alive <$> backends (pool w) = [false; false].
Proof.
  eexists _, _, _. split; [vm_compute; reflexivity|].
  split; [reflexivity|]. split; reflexivity.
Qed.

(** * Further properties of the code *)

(** ** Where the scan of GetNextPeer stops *)

(** The scan returns the first slot alive among [i, i+1, ...] (modulo the
    length), and moves the cursor there unless that is where it began. *)
Lemma GetNextPeer_scan_first (s : ServerPool) (next : Z) (n : nat) :
  backends s <> [] ->
  forall i, 0 <= i ->
  match GetNextPeer_scan s next i n with
  | Returns (Some j, s') =>
      exists (k : nat) b,
        (k < n)%nat /\
        j = Z.to_nat ((i + Z.of_nat k) mod len (backends s)) /\
        backends s !! j = Some b /\ Alive b = true /\
        (forall (k' : nat) b', (k' < k)%nat ->
           backends s !! Z.to_nat ((i + Z.of_nat k') mod len (backends s)) = Some b' ->
           Alive b' = false) /\
        s' = (if i + Z.of_nat k =? next then s
              else {| backends := backends s;
                      current := atomic.StoreUint64 (current s)
                                   ((i + Z.of_nat k) mod len (backends s)) |})
  | Returns (None, s') =>
      s' = s /\
      forall (k : nat) b, (k < n)%nat ->
        backends s !! Z.to_nat ((i + Z.of_nat k) mod len (backends s)) = Some b ->
        Alive b = false
  | Panics _ => False
  end.
Proof.
  intros Hne. pose proof (len_pos _ Hne) as HN.
  induction n as [|n IH]; intros i Hi; cbn [GetNextPeer_scan].
  - split; [done|]. intros; lia.
  - rewrite Z.rem_mod_nonneg by lia.
    pose proof (Z.mod_pos_bound i (len (backends s)) HN) as Hidx.
    destruct (index_Some (backends s) _ Hidx) as (b & -> & Hb).
    unfold IsAlive. destruct (Alive b) eqn:Hal.
    + exists 0%nat, b. rewrite Z.add_0_r.
      repeat split; [lia|done|done|intros; lia].
    + specialize (IH (i + 1) ltac:(lia)).
      destruct (GetNextPeer_scan s next (i + 1) n) as [[[j|] s']|msg]; [| |done].
      * destruct IH as (k & b' & Hk & Hj & Hb' & Hal' & Hdead & Hs').
        exists (S k), b'.
        replace (i + Z.of_nat (S k)) with (i + 1 + Z.of_nat k) by lia.
        repeat split; [lia|done|done|done| |done].
        intros [|k'] b'' Hk' Hb''.
        -- rewrite Z.add_0_r in Hb''. congruence.
        -- apply (Hdead k' b''); [lia|].
           by replace (i + 1 + Z.of_nat k') with (i + Z.of_nat (S k')) by lia.
      * destruct IH as [-> Hdead]. split; [done|].
        intros [|k] b' Hk Hb'.
        -- rewrite Z.add_0_r in Hb'. congruence.
        -- apply (Hdead k b'); [lia|].
           by replace (i + 1 + Z.of_nat k) with (i + Z.of_nat (S k)) by lia.
Qed.

(** [GetNextPeer] on a pool that is not empty, in terms of the start of the
    scan [(cursor + 1) mod 2^64 mod N]. *)
Lemma GetNextPeer_first (s : ServerPool) :
  backends s <> [] ->
  let N := len (backends s) in
  let c := (current s + 1) mod 2 ^ 64 in
  match GetNextPeer s with
  | Returns (Some j, s') =>
      exists (k : nat) b,
        (k < length (backends s))%nat /\
        j = Z.to_nat ((c mod N + Z.of_nat k) mod N) /\
        backends s !! j = Some b /\ Alive b = true /\
        (forall (k' : nat) b', (k' < k)%nat ->
           backends s !! Z.to_nat ((c mod N + Z.of_nat k') mod N) = Some b' ->
           Alive b' = false) /\
        backends s' = backends s /\
        current s' = (if k is O then c
                      else ((c mod N + Z.of_nat k) mod N) mod 2 ^ 64)
  | Returns (None, s') =>
      s' = {| backends := backends s; current := c |} /\
      forall b, b ∈ backends s -> Alive b = false
  | Panics _ => False
  end.
Proof.
  intros Hne N c. rewrite GetNextPeer_unfold by done. cbn zeta.
  change (atomic.AddUint64 (current s) 1) with c. fold N.
  set (s1 := {| backends := backends s; current := c |}).
  pose proof (len_pos _ Hne) as HN. fold N in HN.
  pose proof (Z.mod_pos_bound c N HN) as Hst.
  pose proof (GetNextPeer_scan_first s1 (c mod N) (length (backends s)) Hne
                (c mod N) ltac:(lia)) as H.
  change (backends s1) with (backends s) in H. fold N in H.
  destruct (GetNextPeer_scan s1 (c mod N) (c mod N) (length (backends s)))
    as [[[j|] s']|msg]; [| |done].
  - destruct H as (k & b & Hk & Hj & Hb & Hal & Hdead & ->).
    exists k, b. repeat split; [done|done|done|done|done|by destruct (_ =? _)|].
    destruct k as [|k].
    + by rewrite Z.add_0_r, Z.eqb_refl.
    + destruct (Z.eqb_spec (c mod N + Z.of_nat (S k)) (c mod N)); [lia|done].
  - destruct H as [-> Hdead]. split; [done|].
    intros b [m Hm]%list_elem_of_lookup.
    pose proof (lookup_lt_Some _ _ _ Hm) as Hmlt.
    destruct (full_cycle_covers N (c mod N) m) as (k & Hk & Hkm);
      [lia|unfold N, len; lia|].
    apply (Hdead k b); [unfold N, len in Hk; lia|]. by rewrite Hkm.
Qed.

Lemma GetNextPeer_Returns_nonempty (s : ServerPool) p s' :
  GetNextPeer s = Returns (p, s') -> backends s <> [].
Proof.
  intros H E. unfold GetNextPeer, NextIndex in H. rewrite E in H. done.
Qed.

(** X1. The backend [GetNextPeer] returns is the nearest alive one in
    rotation order: it sits [k] slots after the start of the scan, the slot
    [(cursor + 1) mod 2^64 mod N], and the [k] slots the scan passed over
    are all marked down. *)
Theorem GetNextPeer_nearest_alive (s : ServerPool) (j : nat) (s' : ServerPool)
    (Hret : GetNextPeer s = Returns (Some j, s')) :
  let N := len (backends s) in
  let start := ((current s + 1) mod 2 ^ 64) mod N in
  exists k : nat,
    (k < length (backends s))%nat /\
    j = Z.to_nat ((start + Z.of_nat k) mod N) /\
    (exists b, backends s !! j = Some b /\ Alive b = true) /\
    forall (k' : nat) b', (k' < k)%nat ->
      backends s !! Z.to_nat ((start + Z.of_nat k') mod N) = Some b' ->
      Alive b' = false.
Proof.
  intros N start.
  pose proof (GetNextPeer_first s (GetNextPeer_Returns_nonempty _ _ _ Hret)) as H.
  rewrite Hret in H. cbn zeta in H.
  destruct H as (k & b & Hk & Hj & Hb & Hal & Hdead & _).
  exists k. repeat split; [done|done|by exists b|done].
Qed.

Lemma GetNextPeer_nearest_alive_witness :
  exists k : nat,
    (k < 3)%nat /\ 0%nat = Z.to_nat ((1 + Z.of_nat k) mod 3) /\
    forall (k' : nat) b', (k' < k)%nat ->
      backends (MarkBackendStatus (MarkBackendStatus (poolABC 0) urlB false)
                  urlC false)
        !! Z.to_nat ((1 + Z.of_nat k') mod 3) = Some b' ->
      Alive b' = false.
Proof.
  destruct (GetNextPeer_nearest_alive
              (MarkBackendStatus (MarkBackendStatus (poolABC 0) urlB false)
                 urlC false) 0 _ eq_refl) as (k & Hk & Hj & _ & Hdead).
  exists k. split; [exact Hk|]. split; [exact Hj|exact Hdead].
Defined.

(** X2. After [GetNextPeer] has returned a backend, the cursor points at
    it: the cursor modulo the length of the pool is the slot returned (it
    is the incremented cursor when the scan stopped at once, and the slot
    itself when dead backends were passed over), it is a [uint64], and the
    backends are as before.  The length of the pool fits a [uint64], as
    the length of a slice does. *)
Theorem GetNextPeer_cursor_at_peer (s : ServerPool) (j : nat) (s' : ServerPool)
    (Hfit : len (backends s) < 2 ^ 64)
    (Hret : GetNextPeer s = Returns (Some j, s')) :
  current s' mod len (backends s) = Z.of_nat j /\
  (current s' = (current s + 1) mod 2 ^ 64 \/ current s' = Z.of_nat j) /\
  0 <= current s' < 2 ^ 64 /\
  backends s' = backends s.
Proof.
  pose proof (GetNextPeer_Returns_nonempty _ _ _ Hret) as Hne.
  pose proof (len_pos _ Hne) as HN.
  pose proof (GetNextPeer_first s Hne) as H.
  rewrite Hret in H. cbn zeta in H.
  destruct H as (k & b & Hk & Hj & Hb & Hal & Hdead & Hbs & Hc).
  set (c := (current s + 1) mod 2 ^ 64) in *.
  set (N := len (backends s)) in *.
  assert (Hcr : 0 <= c < 2 ^ 64) by (apply Z.mod_pos_bound; lia).
  pose proof (Z.mod_pos_bound (c mod N + Z.of_nat k) N HN) as Hidx.
  destruct k as [|k].
  - rewrite Z.add_0_r, Z.mod_mod in Hj by lia.
    pose proof (Z.mod_pos_bound c N HN).
    rewrite Hc. repeat split; [lia|by left|lia|lia|done].
  - rewrite Z.mod_small in Hc by lia.
    rewrite Hc. rewrite Z.mod_mod by lia.
    repeat split; [lia|right; lia|lia|lia|done].
Qed.

Lemma GetNextPeer_cursor_at_peer_witness :
  exists s',
    GetNextPeer (MarkBackendStatus (poolABC 0) urlB false) = Returns (Some 2%nat, s') /\
    current s' = 2.
Proof.
  eexists. split; [reflexivity|].
  destruct (GetNextPeer_cursor_at_peer
              (MarkBackendStatus (poolABC 0) urlB false) 2 _
              ltac:(reflexivity) eq_refl) as (_ & [H|H] & _); [discriminate H|exact H].
Defined.

(** Where the next scan starts: one slot past the slot just returned,
    unless the cursor wraps. *)
Lemma GetNextPeer_next_start (s : ServerPool) (j : nat) (s1 : ServerPool) :
  len (backends s) < 2 ^ 64 ->
  0 <= current s /\ current s + 2 < 2 ^ 64 ->
  GetNextPeer s = Returns (Some j, s1) ->
  backends s1 = backends s /\
  (Z.of_nat j < len (backends s)) /\
  ((current s1 + 1) mod 2 ^ 64) mod len (backends s)
  = (Z.of_nat j + 1) mod len (backends s).
Proof.
  intros Hfit Hcur Hret.
  pose proof (GetNextPeer_Returns_nonempty _ _ _ Hret) as Hne.
  pose proof (len_pos _ Hne) as HN.
  pose proof (GetNextPeer_first s Hne) as H.
  rewrite Hret in H. cbn zeta in H.
  destruct H as (k & b & Hk & Hj & Hb & Hal & Hdead & Hbs & Hc).
  pose proof (lookup_lt_Some _ _ _ Hb) as Hjlt.
  rewrite (Z.mod_small (current s + 1)) in Hj, Hc by lia.
  set (N := len (backends s)) in *.
  assert (HNlen : N = Z.of_nat (length (backends s))) by done.
  pose proof (Z.mod_pos_bound ((current s + 1) mod N + Z.of_nat k) N HN) as Hidx.
  split; [done|]. split; [lia|].
  destruct k as [|k].
  - rewrite Z.add_0_r, Z.mod_mod in Hj by lia.
    pose proof (Z.mod_pos_bound (current s + 1) N HN).
    rewrite Hc, (Z.mod_small (current s + 1 + 1)) by lia.
    rewrite <- (Zplus_mod_idemp_l (current s + 1)). f_equal. lia.
  - rewrite Z.mod_small in Hc by lia.
    rewrite Hc, (Z.mod_small _ (2 ^ 64)) by lia. f_equal. lia.
Qed.

(** X3. While the cursor does not wrap, no backend is picked twice in a
    row when another one is alive: if [GetNextPeer] returns slot [j] and a
    slot [m] other than [j] is alive, the next [GetNextPeer] returns a
    slot other than [j]. *)
Theorem GetNextPeer_no_immediate_repeat
    (s s1 s2 : ServerPool) (j j' m : nat) (bm : Backend)
    (Hfit : len (backends s) < 2 ^ 64)
    (Hcur : 0 <= current s /\ current s + 2 < 2 ^ 64)
    (Hfirst : GetNextPeer s = Returns (Some j, s1))
    (Hsecond : GetNextPeer s1 = Returns (Some j', s2))
    (Hm : backends s !! m = Some bm) (Hal : Alive bm = true) (Hmj : m <> j) :
  j' <> j.
Proof.
  destruct (GetNextPeer_next_start s j s1 Hfit Hcur Hfirst)
    as (Hbs & Hjlt & Hstart).
  pose proof (GetNextPeer_Returns_nonempty _ _ _ Hfirst) as Hne.
  pose proof (len_pos _ Hne) as HN.
  pose proof (lookup_lt_Some _ _ _ Hm) as Hmlt.
  assert (Hne1 : backends s1 <> []) by (by rewrite Hbs).
  pose proof (GetNextPeer_first s1 Hne1) as H2. rewrite Hsecond in H2.
  cbn zeta in H2. rewrite Hbs in H2.
  destruct H2 as (k & b & Hk & Hj' & Hb & Halb & Hdead & _).
  set (N := len (backends s)) in *.
  assert (HNlen : N = Z.of_nat (length (backends s))) by done.
  rewrite Hstart in Hj', Hdead.
  rewrite Zplus_mod_idemp_l in Hj'.
  intros ->.
  (* the second scan comes back to [j] only after a full turn *)
  assert (Hk' : Z.of_nat k = N - 1).
  { assert (E : (Z.of_nat j + 1 + Z.of_nat k) mod N = Z.of_nat j).
    { pose proof (Z.mod_pos_bound (Z.of_nat j + 1 + Z.of_nat k) N HN). lia. }
    destruct (Z_lt_ge_dec (Z.of_nat j + 1 + Z.of_nat k) N) as [Hlt|Hge].
    - rewrite Z.mod_small in E by lia. lia.
    - replace (Z.of_nat j + 1 + Z.of_nat k)
        with (Z.of_nat j + 1 + Z.of_nat k - N + 1 * N) in E by lia.
      rewrite Z_mod_plus_full, Z.mod_small in E by lia. lia. }
  (* and passes [m] on the way *)
  destruct (full_cycle_covers N ((Z.of_nat j + 1) mod N) m) as (km & Hkm & Hkmm);
    [lia|lia|].
  assert (km <> k).
  { intros ->. rewrite Zplus_mod_idemp_l, Hk' in Hkmm.
    replace (Z.of_nat j + 1 + (N - 1)) with (Z.of_nat j + 1 * N) in Hkmm by lia.
    rewrite Z_mod_plus_full, Z.mod_small in Hkmm by lia. lia. }
  assert (Alive bm = false); [|congruence].
  apply (Hdead km bm); [lia|]. by rewrite Hkmm.
Qed.

Lemma GetNextPeer_no_immediate_repeat_witness :
  exists s1 s2 j',
    GetNextPeer (MarkBackendStatus (poolABC 0) urlB false) = Returns (Some 2%nat, s1) /\
    GetNextPeer s1 = Returns (Some j', s2) /\
    j' <> 2%nat.
Proof.
  eexists _, _, _. split; [reflexivity|]. split; [reflexivity|].
  eapply (GetNextPeer_no_immediate_repeat
            (MarkBackendStatus (poolABC 0) urlB false)) with
    (m := 0%nat) (bm := mkBackend urlA true);
    [reflexivity|split; [discriminate|reflexivity]
    |reflexivity|reflexivity|reflexivity|reflexivity|lia].
Defined.

(** ** lb when nothing is alive *)

(** X4. Full outage: on a pool of at least one backend, none of them alive,
    [lb] answers a request that reads an attempt number of 3 or less with
    503 "Service not available" and returns; nothing is forwarded, the
    backends are as before, and the cursor has still moved on by one. *)
Theorem lb_full_outage (w : World) (r : Request)
    (Hne : backends (pool w) <> [])
    (Hatt : GetAttemptsFromContext r <= 3)
    (Hdead : forall b, b ∈ backends (pool w) -> Alive b = false) :
  lb w r =
  ({| pool := {| backends := backends (pool w);
                 current := (current (pool w) + 1) mod 2 ^ 64 |};
      forwards := forwards w;
      trace := trace w ++ [EvLb r; EvError "Service not available" 503] |},
   CReturn).
Proof.
  unfold lb. destruct (Z.gtb_spec (GetAttemptsFromContext r) 3) as [?|_]; [lia|].
  cbn [emit pool]. pose proof (GetNextPeer_first (pool w) Hne) as H.
  destruct (GetNextPeer (pool w)) as [[[j|] s']|msg]; [| |done].
  - destruct H as (k & b & _ & _ & Hb & Hal & _).
    rewrite (Hdead b) in Hal; [done|]. by eapply list_elem_of_lookup_2.
  - destruct H as [-> _]. unfold emit, with_pool. cbn [pool forwards trace].
    by rewrite <- app_assoc.
Qed.

Lemma lb_full_outage_witness :
  lb (mkWorld (MarkBackendStatus (MarkBackendStatus poolAB urlA false) urlB false)
        0 []) fresh_request
  = (mkWorld (mkServerPool [mkBackend urlA false; mkBackend urlB false] 1) 0
       [EvLb fresh_request; EvError "Service not available" 503],
     CReturn).
Proof.
  apply (lb_full_outage
           (mkWorld (MarkBackendStatus (MarkBackendStatus poolAB urlA false)
                       urlB false) 0 []) fresh_request).
  - discriminate.
  - vm_compute. discriminate.
  - intros b Hb. simpl in Hb.
    repeat (apply elem_of_cons in Hb as [->|Hb]; [reflexivity|]).
    by apply elem_of_nil in Hb.
Defined.

(** ** Passive marking and the health check *)

Lemma MarkBackendStatus_range_URL bs u alive :
  URL <$> MarkBackendStatus_range bs u alive = URL <$> bs.
Proof.
  induction bs as [|b rest IH]; simpl; [done|].
  destruct (String.eqb _ _); simpl; [done|]. f_equal. apply IH.
Qed.

(** A pass looks at the endpoints only. *)
Lemma HealthCheck_range_URLs net bs :
  forall bs' k, URL <$> bs = URL <$> bs' ->
  HealthCheck_range net k bs = HealthCheck_range net k bs'.
Proof.
  induction bs as [|b rest IH]; intros [|b' rest'] k HU; try done.
  injection HU as Hb Hrest. cbn [HealthCheck_range].
  rewrite !isBackendAlive_dial, Hb, (IH rest' (S k) Hrest).
  destruct (HealthCheck_range net (S k) rest') as [ds bs2].
  unfold SetAlive. by rewrite Hb.
Qed.

Lemma HealthCheck_URLs net s1 s2 :
  URL <$> backends s1 = URL <$> backends s2 -> current s1 = current s2 ->
  HealthCheck net s1 = HealthCheck net s2.
Proof.
  intros HU Hc. unfold HealthCheck.
  by rewrite (HealthCheck_range_URLs net _ _ 0 HU), Hc.
Qed.

Lemma HealthCheck_keeps_URLs net s :
  URL <$> backends (snd (HealthCheck net s)) = URL <$> backends s /\
  current (snd (HealthCheck net s)) = current s.
Proof.
  unfold HealthCheck. rewrite HealthCheck_range_spec. simpl. split; [|done].
  apply list_eq. intros i. rewrite !list_lookup_fmap, list_lookup_imap.
  by destruct (backends s !! i).
Qed.

(** X5. Passive recovery: a health check erases passive marking.  A pass
    over a pool in which [MarkBackendStatus] has marked a backend (down or
    up) makes the same dials and leaves the same pool as a pass over the
    pool before the marking. *)
Theorem HealthCheck_after_MarkBackendStatus
    (net : nat -> Dial -> bool) (s : ServerPool) (u : url.URL) (alive : bool) :
  HealthCheck net (MarkBackendStatus s u alive) = HealthCheck net s.
Proof.
  apply HealthCheck_URLs; [|done]. apply MarkBackendStatus_range_URL.
Qed.

(** X6. The loop of [healthCheck]: after any number of ticks, every pass
    has made the same dials (one per backend, in the order of the pool),
    and the pool is the one the last pass alone would have left: the
    verdicts of earlier passes do not matter. *)
Theorem healthCheck_last_pass
    (ticks : list (nat -> Dial -> bool)) (net : nat -> Dial -> bool)
    (s : ServerPool) :
  healthCheck (ticks ++ [net]) s
  = (replicate (S (length ticks))
       ((fun b => mkDial "tcp" (url.Host (URL b)) (2 * time.Second)) <$> backends s),
     snd (HealthCheck net s)).
Proof.
  revert s. induction ticks as [|net0 ticks IH]; intros s.
  - simpl. unfold HealthCheck. rewrite HealthCheck_range_spec. done.
  - cbn [app healthCheck length].
    destruct (HealthCheck net0 s) as [ds s'] eqn:E.
    pose proof (HealthCheck_keeps_URLs net0 s) as [HU Hc]. rewrite E in HU, Hc.
    cbn [snd] in HU, Hc.
    rewrite IH, (HealthCheck_URLs net s' s HU Hc).
    assert (Hp : forall l l' : list Backend, URL <$> l = URL <$> l' ->
              (fun b => mkDial "tcp" (url.Host (URL b)) (2 * time.Second)) <$> l
              = (fun b => mkDial "tcp" (url.Host (URL b)) (2 * time.Second)) <$> l').
    { induction l as [|b l IHl]; intros [|b0 l0] H; try done.
      injection H as Hb Hl. rewrite !fmap_cons, Hb. f_equal. by apply IHl. }
    rewrite (Hp _ _ HU), (replicate_S (S (length ticks))). do 2 f_equal.
    unfold HealthCheck in E. rewrite HealthCheck_range_spec in E.
    by injection E as <- _.
Qed.

(** X7. Marking an endpoint twice: the last status wins, and the pool is
    the one a single call with that status would have left. *)
Theorem MarkBackendStatus_last_wins
    (s : ServerPool) (u : url.URL) (alive alive' : bool) :
  MarkBackendStatus (MarkBackendStatus s u alive) u alive'
  = MarkBackendStatus s u alive'.
Proof.
  unfold MarkBackendStatus. cbn [backends current]. f_equal.
  induction (backends s) as [|b rest IH]; simpl; [done|].
  destruct (String.eqb (url.String (URL b)) (url.String u)) eqn:E; simpl.
  - by rewrite E.
  - by rewrite E, IH.
Qed.

(** X8. Marking two endpoints that render differently: the order of the
    two calls does not matter. *)
Theorem MarkBackendStatus_commutes
    (s : ServerPool) (u v : url.URL) (a b : bool)
    (Huv : url.String u <> url.String v) :
  MarkBackendStatus (MarkBackendStatus s u a) v b
  = MarkBackendStatus (MarkBackendStatus s v b) u a.
Proof.
  unfold MarkBackendStatus. cbn [backends current]. f_equal.
  induction (backends s) as [|b0 rest IH]; simpl; [done|].
  destruct (String.eqb_spec (url.String (URL b0)) (url.String u)) as [Eu|Nu];
    destruct (String.eqb_spec (url.String (URL b0)) (url.String v)) as [Ev|Nv];
    simpl.
  - congruence.
  - rewrite (proj2 (String.eqb_eq _ _) Eu), (proj2 (String.eqb_neq _ _) Nv). done.
  - rewrite (proj2 (String.eqb_eq _ _) Ev), (proj2 (String.eqb_neq _ _) Nu). done.
  - rewrite (proj2 (String.eqb_neq _ _) Nu), (proj2 (String.eqb_neq _ _) Nv), IH.
    done.
Qed.

Lemma MarkBackendStatus_commutes_witness :
  MarkBackendStatus (MarkBackendStatus (poolABC 0) urlA false) urlC false
  = MarkBackendStatus (MarkBackendStatus (poolABC 0) urlC false) urlA false.
Proof.
  apply (MarkBackendStatus_commutes (poolABC 0) urlA urlC false false).
  simpl. discriminate.
Defined.

(** ** The dispatcher and the pool *)

Lemma GetNextPeer_keeps_backends (s : ServerPool) p s' :
  GetNextPeer s = Returns (p, s') -> backends s' = backends s.
Proof.
  intros Hret.
  pose proof (GetNextPeer_first s (GetNextPeer_Returns_nonempty _ _ _ Hret)) as H.
  rewrite Hret in H. cbn zeta in H. destruct p as [j|].
  - by destruct H as (k & b & _ & _ & _ & _ & _ & Hbs & _).
  - by destruct H as [-> _].
Qed.

Lemma GetNextPeer_Some_alive (s : ServerPool) j s' :
  GetNextPeer s = Returns (Some j, s') ->
  exists b, backends s !! j = Some b /\ Alive b = true.
Proof.
  intros Hret.
  pose proof (GetNextPeer_first s (GetNextPeer_Returns_nonempty _ _ _ Hret)) as H.
  rewrite Hret in H. cbn zeta in H.
  destruct H as (k & b & _ & _ & Hb & Hal & _). by exists b.
Qed.

(** X9. Failover leaves the failed backend alone: when the error handler of
    slot [i] fails over, and no earlier slot has the endpoint of slot [i],
    slot [i] is marked down and nothing else changes in the pool; [lb] then
    either forwards the request to a slot other than [i], alive before the
    failover, or answers the client itself. *)
Theorem failover_skips_failed_backend
    (transport : nat -> nat -> bool)
    (w : World) (i : nat) (r : Request) (b : Backend)
    (Hretries : 3 <= GetRetryFromContext r)
    (Hb : backends (pool w) !! i = Some b)
    (Hfirst : forall j b', (j < i)%nat -> backends (pool w) !! j = Some b' ->
                url.String (URL b') <> url.String (URL b)) :
  exists w' c',
    run transport 2 w (CErrorHandler i r) = (w', c') /\
    backends (pool w') = <[i := SetAlive b false]> (backends (pool w)) /\
    match c' with
    | CServeHTTP j _ =>
        j <> i /\ exists bj, backends (pool w) !! j = Some bj /\ Alive bj = true
    | CReturn =>
        exists t, trace w' = t ++ [EvError "Service not available" 503]
    | _ => False
    end.
Proof.
  cbn [run step]. unfold ErrorHandler.
  destruct (Z.ltb_spec (GetRetryFromContext r) 3) as [?|_]; [lia|].
  rewrite Hb.
  set (r1 := WithContext r _).
  set (s1 := MarkBackendStatus (pool w) (URL b) false).
  assert (Hs1 : backends s1 = <[i := SetAlive b false]> (backends (pool w))).
  { apply MarkBackendStatus_range_first; done. }
  cbn [run step]. unfold lb. cbn [emit with_pool pool trace forwards].
  destruct (GetAttemptsFromContext r1 >? 3).
  - eexists _, _. split; [reflexivity|]. cbn [pool trace with_pool emit]. split; [done|].
    by eexists.
  - destruct (GetNextPeer s1) as [[[j|] s']|msg] eqn:Hnext.
    + eexists _, _. split; [reflexivity|]. cbn [pool trace with_pool emit].
      rewrite (GetNextPeer_keeps_backends _ _ _ Hnext). split; [done|].
      destruct (GetNextPeer_Some_alive _ _ _ Hnext) as (bj & Hbj & Hal).
      rewrite Hs1 in Hbj.
      assert (j <> i).
      { intros ->. rewrite list_lookup_insert_eq in Hbj
          by (by eapply lookup_lt_Some).
        injection Hbj as <-. done. }
      split; [done|]. exists bj.
      by rewrite list_lookup_insert_ne in Hbj.
    + eexists _, _. split; [reflexivity|]. cbn [pool trace with_pool emit].
      rewrite (GetNextPeer_keeps_backends _ _ _ Hnext). split; [done|].
      by eexists.
    + exfalso. pose proof (GetNextPeer_first s1) as H. rewrite Hnext in H.
      apply H. rewrite Hs1. intros E.
      apply (f_equal length) in E. rewrite length_insert in E.
      apply lookup_lt_Some in Hb. simpl in E. lia.
Qed.

Lemma failover_skips_failed_backend_witness :
  exists w' r',
    run all_down 2 worldAB (CErrorHandler 1 retried_request)
    = (w', CServeHTTP 0 r') /\
    backends (pool w') = [mkBackend urlA true; mkBackend urlB false].
Proof.
  destruct (failover_skips_failed_backend all_down worldAB 1 retried_request
              (mkBackend urlB true)) as (w' & c' & Hrun & Hbs & _).
  - vm_compute. discriminate.
  - reflexivity.
  - intros [|[|j]] b' Hj Hb'; [|lia|lia].
    injection Hb' as <-. simpl. discriminate.
  - eexists _, _. split; [reflexivity|].
    vm_compute in Hrun. injection Hrun as <- _. reflexivity.
Defined.

(** One transfer of control keeps the pool as long as it was, and control
    at a slot of the pool. *)
Lemma step_control_ok transport w c w' c' :
  backends (pool w) <> [] -> control_ok (pool w) c ->
  step transport w c = (w', c') ->
  length (backends (pool w')) = length (backends (pool w)) /\
  control_ok (pool w') c'.
Proof.
  intros Hne Hc Hstep. destruct c as [r|p r|p r| |msg]; simpl in Hstep, Hc.
  - unfold lb in Hstep. destruct (GetAttemptsFromContext r >? 3).
    + by injection Hstep as <- <-.
    + cbn [emit pool] in Hstep.
      pose proof (GetNextPeer_first (pool w) Hne) as H.
      destruct (GetNextPeer (pool w)) as [[[j|] s']|msg] eqn:Hnext; [| |done].
      * injection Hstep as <- <-. cbn [with_pool pool control_ok].
        destruct H as (k & b & _ & _ & Hb & _ & _ & Hbs & _).
        rewrite Hbs. split; [done|]. by eapply lookup_lt_Some.
      * injection Hstep as <- <-. destruct H as [-> _]. done.
  - unfold ServeHTTP in Hstep.
    destruct (transport _ _); by injection Hstep as <- <-.
  - unfold ErrorHandler in Hstep. destruct (GetRetryFromContext r <? 3).
    + by injection Hstep as <- <-.
    + destruct (lookup_lt_is_Some_2 _ _ Hc) as [b Hb]. rewrite Hb in Hstep.
      injection Hstep as <- <-. cbn [with_pool pool control_ok].
      split; [|done]. apply MarkBackendStatus_range_length.
  - by injection Hstep as <- <-.
  - done.
Qed.

Lemma run_control_ok transport n :
  forall w c,
  backends (pool w) <> [] -> control_ok (pool w) c ->
  length (backends (pool (fst (run transport n w c))))
  = length (backends (pool w)) /\
  control_ok (pool (fst (run transport n w c))) (snd (run transport n w c)).
Proof.
  induction n as [|n IH]; intros w c Hne Hc; [done|].
  cbn [run]. destruct (step transport w c) as [w1 c1] eqn:Hstep.
  destruct (step_control_ok _ _ _ _ _ Hne Hc Hstep) as [Hlen Hc1].
  destruct (IH w1 c1) as [Hlen' Hc']; [|done|].
  - intros E. rewrite E in Hlen. destruct (backends (pool w)); done.
  - split; [congruence|done].
Qed.

(** X10. Over a pool of at least one backend the handling of a request
    never panics: however long it runs and whatever the upstreams do,
    [NextIndex] does not divide by zero, every slot the proxy or its error
    handler is called for exists, and the pool keeps its length. *)
Theorem dispatcher_never_panics
    (transport : nat -> nat -> bool) (n : nat) (w : World) (r : Request)
    (Hne : backends (pool w) <> []) :
  (forall msg, snd (run transport n w (CLb r)) <> CPanic msg) /\
  control_ok (pool (fst (run transport n w (CLb r))))
             (snd (run transport n w (CLb r))) /\
  length (backends (pool (fst (run transport n w (CLb r)))))
  = length (backends (pool w)).
Proof.
  destruct (run_control_ok transport n w (CLb r) Hne I) as [Hlen Hc].
  split; [|done]. intros msg E. rewrite E in Hc. done.
Qed.

Lemma dispatcher_never_panics_witness :
  (forall msg, snd (run all_down 40 (mkWorld pool5 0 []) (CLb retried_request))
               <> CPanic msg) /\
  length (backends (pool (fst (run all_down 40 (mkWorld pool5 0 [])
                                 (CLb retried_request)))))
  = length (backends pool5).
Proof.
  assert (Hne : backends (pool (mkWorld pool5 0 [])) <> []) by discriminate.
  pose proof (dispatcher_never_panics all_down 40 (mkWorld pool5 0 [])
                retried_request Hne) as (H & _ & Hlen).
  split; [exact H|exact Hlen].
Defined.

(** ** What the dispatcher never does to the pool *)

Lemma marked_down_refl bs : marked_down bs bs.
Proof. unfold marked_down. induction bs; constructor; done. Qed.

Lemma marked_down_trans bs1 bs2 bs3 :
  marked_down bs1 bs2 -> marked_down bs2 bs3 -> marked_down bs1 bs3.
Proof.
  unfold marked_down. intros H12. revert bs3.
  induction H12 as [|b1 b2 l1 l2 [HU HA] _ IH]; intros bs3 H23;
    inversion H23 as [|? b3 ? l3 [HU' HA'] Hrest]; subst; constructor.
  - split; [congruence|tauto].
  - by apply IH.
Qed.

Lemma MarkBackendStatus_range_marked_down bs u :
  marked_down bs (MarkBackendStatus_range bs u false).
Proof.
  induction bs as [|b rest IH]; simpl; [constructor|].
  destruct (String.eqb _ _).
  - constructor; [done|apply marked_down_refl].
  - constructor; done.
Qed.

Lemma step_marked_down transport w c w' c' :
  step transport w c = (w', c') ->
  marked_down (backends (pool w)) (backends (pool w')).
Proof.
  intros Hstep. destruct c as [r|p r|p r| |msg]; simpl in Hstep.
  - unfold lb in Hstep. destruct (GetAttemptsFromContext r >? 3).
    + injection Hstep as <- _. apply marked_down_refl.
    + cbn [emit pool] in Hstep.
      destruct (GetNextPeer (pool w)) as [[[j|] s']|msg] eqn:Hnext;
        injection Hstep as <- _; cbn [emit with_pool pool];
        rewrite ?(GetNextPeer_keeps_backends _ _ _ Hnext);
        apply marked_down_refl.
  - unfold ServeHTTP in Hstep.
    destruct (transport _ _); injection Hstep as <- _; apply marked_down_refl.
  - unfold ErrorHandler in Hstep. destruct (GetRetryFromContext r <? 3).
    + injection Hstep as <- _. apply marked_down_refl.
    + destruct (backends (pool w) !! p); injection Hstep as <- _.
      * apply MarkBackendStatus_range_marked_down.
      * apply marked_down_refl.
  - injection Hstep as <- _. apply marked_down_refl.
  - injection Hstep as <- _. apply marked_down_refl.
Qed.

(** X11. The handling of a request never revives a backend and never
    changes an endpoint: however long it runs, from wherever control is,
    every slot of the pool holds the URL it held, and a slot that is alive
    afterwards was alive before. *)
Theorem dispatcher_only_marks_down
    (transport : nat -> nat -> bool) (n : nat) (w : World) (c : Control) :
  marked_down (backends (pool w))
              (backends (pool (fst (run transport n w c)))).
Proof.
  revert w c. induction n as [|n IH]; intros w c; [apply marked_down_refl|].
  cbn [run]. destruct (step transport w c) as [w1 c1] eqn:Hstep.
  eapply marked_down_trans; [by eapply step_marked_down|apply IH].
Qed.

(** ** What the handling of a request reads from its context *)

Lemma same_counters_emit r t e :
  Forall (same_counters r) t -> same_counters r e ->
  Forall (same_counters r) (t ++ [e]).
Proof. intros Ht He. apply Forall_app. split; [done|]. by constructor. Qed.

Lemma step_same_counters transport r w c w' c' :
  carries r c -> Forall (same_counters r) (trace w) ->
  step transport w c = (w', c') ->
  carries r c' /\ Forall (same_counters r) (trace w').
Proof.
  unfold carries.
  intros Hc Ht Hstep. destruct c as [r0|p r0|p r0| |msg]; simpl in Hstep, Hc.
  - unfold lb in Hstep. destruct (GetAttemptsFromContext r0 >? 3).
    + injection Hstep as <- <-. split; [done|].
      cbn [emit trace]. by repeat apply same_counters_emit.
    + cbn [emit pool] in Hstep.
      destruct (GetNextPeer (pool w)) as [[[j|] s']|msg];
        injection Hstep as <- <-; (split; [done|]);
        cbn [emit with_pool trace]; by repeat apply same_counters_emit.
  - unfold ServeHTTP in Hstep. destruct (transport _ _);
      injection Hstep as <- <-; (split; [done|]); cbn [emit trace];
      by repeat apply same_counters_emit.
  - unfold ErrorHandler in Hstep. destruct (GetRetryFromContext r0 <? 3).
    + injection Hstep as <- <-. cbn [request_of emit trace].
      rewrite GetRetryFromContext_WithValue, GetAttemptsFromContext_WithValue.
      split; [done|]. by apply same_counters_emit.
    + destruct (backends (pool w) !! p); injection Hstep as <- <-;
        cbn [request_of with_pool trace]; [|done].
      by rewrite GetRetryFromContext_WithValue, GetAttemptsFromContext_WithValue.
  - by injection Hstep as <- <-.
  - by injection Hstep as <- <-.
Qed.

Lemma run_same_counters transport r n :
  forall w c,
  carries r c -> Forall (same_counters r) (trace w) ->
  Forall (same_counters r) (trace (fst (run transport n w c))).
Proof.
  induction n as [|n IH]; intros w c Hc Ht; [done|].
  cbn [run]. destruct (step transport w c) as [w1 c1] eqn:Hstep.
  destruct (step_same_counters _ _ _ _ _ _ Hc Ht Hstep) as [Hc1 Ht1].
  by apply IH.
Qed.

(** X12. The two counters never advance.  However long the handling of a
    request runs and whatever the upstreams do, every request that enters
    [lb] and every request a proxy sends upstream reads the retry count
    and the attempt number the first request read: what the error handler
    stores with [context.WithValue] is never what the two readers find. *)
Theorem counters_never_advance
    (transport : nat -> nat -> bool) (n : nat) (w : World) (r : Request)
    (Hnew : trace w = []) :
  Forall (same_counters r) (trace (fst (run transport n w (CLb r)))).
Proof.
  apply run_same_counters; [by unfold carries|]. rewrite Hnew. constructor.
Qed.

Lemma counters_never_advance_witness :
  Forall (same_counters retried_request)
         (trace (fst (run all_down 20 (mkWorld pool5 0 []) (CLb retried_request)))).
Proof.
  exact (counters_never_advance all_down 20 (mkWorld pool5 0 [])
           retried_request eq_refl).
Defined.

(** ** Retrying until the upstream answers *)

Lemma delays_app t1 t2 : delays (t1 ++ t2) = delays t1 ++ delays t2.
Proof.
  induction t1 as [|e t1 IH]; simpl; [done|]. destruct e; simpl; congruence.
Qed.

(** A proxy whose upstream fails [m] more round trips and then answers:
    [m] retries, each after a sleep of 10 ms, then the response. *)
Lemma ServeHTTP_until_up (k m : nat) :
  forall w p r,
  (forwards w + m = k)%nat ->
  GetRetryFromContext r < 3 ->
  exists w',
    run (down_until k) (2 * m + 1) w (CServeHTTP p r) = (w', CReturn) /\
    forwarded_to (trace w') = forwarded_to (trace w) ++ repeat p (S m) /\
    delays (trace w') = delays (trace w) ++ repeat (10 * time.Millisecond) m /\
    pool w' = pool w /\
    exists t, trace w' = t ++ [EvResponse p].
Proof.
  induction m as [|m IH]; intros w p r Hk Hr.
  - cbn [Nat.mul Nat.add run step]. unfold ServeHTTP, down_until.
    replace (forwards w) with k by lia. rewrite Nat.leb_refl.
    eexists. split; [reflexivity|]. cbn [emit trace pool].
    rewrite !forwarded_to_app, !delays_app. simpl. rewrite !app_nil_r.
    repeat split. by eexists.
  - replace (2 * S m + 1)%nat with (2 + (2 * m + 1))%nat by lia.
    rewrite run_add. cbn [run step]. unfold ServeHTTP at 1 2, down_until.
    destruct (Nat.leb_spec k (forwards w)) as [?|_]; [lia|].
    cbn [step]. unfold ErrorHandler.
    destruct (Z.ltb_spec (GetRetryFromContext r) 3) as [_|?]; [|lia].
    cbn [fst snd].
    set (r' := WithContext r _). set (w2 := emit _ _).
    destruct (IH w2 p r') as (w' & Hrun & Hfw & Hdl & Hp & Ht).
    { unfold w2. cbn [emit forwards]. lia. }
    { unfold r'. rewrite GetRetryFromContext_WithValue. lia. }
    exists w'. split; [exact Hrun|]. rewrite Hfw, Hdl, Hp.
    unfold w2. cbn [emit trace pool].
    rewrite !forwarded_to_app, !delays_app. simpl. rewrite !app_nil_r.
    rewrite <- !app_assoc. simpl.
    done.
Qed.

(** X13. A request from the server is retried until its upstream answers.
    When some backend is alive and the upstreams fail the next [k] round
    trips, whatever [k] is, the request goes [k + 1] times to the one
    backend [lb] picks, with a sleep of 10 ms before each of the [k]
    retries; the client gets that backend's response, and every backend
    keeps the liveness flag it had. *)
Theorem retried_until_upstream_answers
    (w : World) (r : Request) (k : nat)
    (Hin : inbound r = true)
    (Halive : exists b, b ∈ backends (pool w) /\ Alive b = true) :
  exists j w',
    run (down_until (forwards w + k)) (2 * k + 2) w (CLb r) = (w', CReturn) /\
    (exists b, backends (pool w) !! j = Some b /\ Alive b = true) /\
    forwarded_to (trace w') = forwarded_to (trace w) ++ repeat j (S k) /\
    delays (trace w') = delays (trace w) ++ repeat (10 * time.Millisecond) k /\
    backends (pool w') = backends (pool w) /\
    exists t, trace w' = t ++ [EvResponse j].
Proof.
  destruct Halive as (b0 & Hb0 & Hal0).
  assert (Hne : backends (pool w) <> []).
  { intros E. rewrite E in Hb0. by apply elem_of_nil in Hb0. }
  assert (Hr : GetRetryFromContext r = 0).
  { unfold GetRetryFromContext. by rewrite inbound_Value. }
  assert (Ha : GetAttemptsFromContext r = 1).
  { unfold GetAttemptsFromContext. by rewrite inbound_Value. }
  replace (2 * k + 2)%nat with (1 + (2 * k + 1))%nat by lia.
  rewrite run_add. cbn [run step]. unfold lb. rewrite Ha.
  cbn [Z.gtb Z.compare Pos.compare Pos.compare_cont emit pool].
  pose proof (GetNextPeer_first (pool w) Hne) as H.
  destruct (GetNextPeer (pool w)) as [[[j|] s']|msg] eqn:Hnext; [| |done].
  - destruct H as (_ & b & _ & _ & Hb & Hal & _ & Hbs & _).
    cbn [fst snd].
    set (w1 := with_pool _ s').
    destruct (ServeHTTP_until_up (forwards w + k) k w1 j r)
      as (w' & Hrun & Hfw & Hdl & Hp & Ht); [done|lia|].
    exists j, w'. split; [exact Hrun|]. split; [by exists b|].
    rewrite Hfw, Hdl, Hp. unfold w1. cbn [with_pool emit trace pool].
    rewrite forwarded_to_app, delays_app, Hbs. simpl. rewrite !app_nil_r.
    done.
  - destruct H as [_ Hdead]. rewrite (Hdead b0 Hb0) in Hal0. done.
Qed.

Lemma retried_until_upstream_answers_witness :
  exists j w',
    run (down_until 5) 12 worldAB (CLb fresh_request) = (w', CReturn) /\
    forwarded_to (trace w') = repeat j 6 /\
    delays (trace w') = repeat (10 * time.Millisecond) 5.
Proof.
  destruct (retried_until_upstream_answers worldAB fresh_request 5 eq_refl)
    as (j & w' & Hrun & _ & Hfw & Hdl & _).
  - exists (mkBackend urlA true). split; [left|reflexivity].
  - exists j, w'. split; [exact Hrun|]. split; [exact Hfw|exact Hdl].
Defined.

(** ** Start-up *)

(** The loop of [main] either parses every backend and appends one live
    backend per URL, in order, or stops at the first that does not
    parse. *)
Lemma main_range_spec (Parse : string -> string + url.URL) tokens :
  forall s,
  match main_range Parse tokens s with
  | inr s' =>
      exists urls,
        Forall2 (fun tok u => Parse tok = inr u) tokens urls /\
        s' = {| backends := backends s
                            ++ ((fun u => {| URL := u; Alive := true |}) <$> urls);
                current := current s |}
  | inl err =>
      exists pre tok post,
        tokens = pre ++ tok :: post /\
        Forall (fun t => exists u, Parse t = inr u) pre /\
        Parse tok = inl err
  end.
Proof.
  induction tokens as [|tok rest IH]; intros s; cbn [main_range].
  - exists []. split; [constructor|]. destruct s. simpl. by rewrite app_nil_r.
  - destruct (Parse tok) as [err|u] eqn:Htok.
    + exists [], tok, rest. repeat split; [constructor|done].
    + specialize (IH (AddBackend s {| URL := u; Alive := true |})).
      destruct (main_range Parse rest _) as [err|s'].
      * destruct IH as (pre & t & post & -> & Hpre & Ht).
        exists (tok :: pre), t, post. repeat split; [|done].
        constructor; [by exists u|done].
      * destruct IH as (urls & Hurls & ->).
        exists (u :: urls). split; [by constructor|].
        simpl. by rewrite <- app_assoc.
Qed.

Lemma main_range_parsed (Parse : string -> string + url.URL) tokens urls :
  Forall2 (fun tok u => Parse tok = inr u) tokens urls ->
  forall s,
  main_range Parse tokens s
  = inr {| backends := backends s
                       ++ ((fun u => {| URL := u; Alive := true |}) <$> urls);
           current := current s |}.
Proof.
  induction 1 as [|tok u tokens urls Htok _ IH]; intros s; cbn [main_range].
  - destruct s. simpl. by rewrite app_nil_r.
  - rewrite Htok, IH. simpl. by rewrite <- app_assoc.
Qed.

(** X14. [main] gets to serving, and goes on serving, exactly when the
    configuration file can be read, its content is accepted as JSON on top
    of the defaults (port 3030, no backends), at least one backend is
    listed, every listed backend parses as a URL, and [ListenAndServe] on
    the configured port does not return an error.  It then serves on the
    configured port with one backend per listed URL, in the order of the
    list, all marked alive, and the cursor at 0. *)
Theorem main_serves_configured_pool
    (ReadFile : string -> option string)
    (Unmarshal : string -> Config -> option Config)
    (Parse : string -> string + url.URL)
    (ListenAndServe : Z -> option string)
    (port : Z) (s : ServerPool) :
  main ReadFile Unmarshal Parse ListenAndServe = Serving port s <->
  exists data config urls,
    ReadFile "config.json" = Some data /\
    Unmarshal data {| Port := 3030; Backends := [] |} = Some config /\
    Backends config <> [] /\
    Forall2 (fun tok u => Parse tok = inr u) (Backends config) urls /\
    ListenAndServe (Port config) = None /\
    port = Port config /\
    s = {| backends := (fun u => {| URL := u; Alive := true |}) <$> urls;
           current := 0 |}.
Proof.
  unfold main. split.
  - destruct (ReadFile "config.json") as [data|] eqn:Hread; [|done].
    destruct (Unmarshal data _) as [config|] eqn:Hjson; [|done].
    destruct (Z.eqb_spec (len (Backends config)) 0) as [|Hlen]; [done|].
    pose proof (main_range_spec Parse (Backends config)
                  {| backends := []; current := 0 |}) as H.
    destruct (main_range Parse (Backends config) _) as [err|s']; [done|].
    destruct H as (urls & Hurls & ->).
    destruct (ListenAndServe (Port config)) as [err|] eqn:Hlisten; [done|].
    intros [= <- <-].
    exists data, config, urls. repeat split; [done| |done|done].
    intros E. rewrite E in Hlen. done.
  - intros (data & config & urls & -> & -> & Hne & Hurls & Hlisten & -> & ->).
    destruct (Z.eqb_spec (len (Backends config)) 0) as [E|_].
    + destruct (Backends config); [done|]. unfold len in E. simpl in E. lia.
    + by rewrite (main_range_parsed Parse _ _ Hurls), Hlisten.
Qed.

Lemma main_serves_configured_pool_witness :
  main (fun _ => Some "{}")
       (fun _ c => Some {| Port := Port c; Backends := ["http://a"; "http://b"] |})
       (fun tok => inr (url.mkURL tok tok))
       (fun port => if port <? 65536 then None else Some "invalid port")
  = Serving 3030
      {| backends := [mkBackend (url.mkURL "http://a" "http://a") true;
                      mkBackend (url.mkURL "http://b" "http://b") true];
         current := 0 |}.
Proof.
  apply main_serves_configured_pool.
  eexists _, _, [_; _]. split; [reflexivity|]. split; [reflexivity|].
  split; [discriminate|]. split; [|split; [|split]; reflexivity].
  repeat constructor.
Defined.

(** X15. One backend that does not parse stops the start-up: when the
    configuration is read and accepted and some listed backend is not a
    URL, [main] ends in [log.Fatal] with the error of the first such
    backend, and serves nothing, whatever the other backends are. *)
Theorem main_rejects_bad_backend
    (ReadFile : string -> option string)
    (Unmarshal : string -> Config -> option Config)
    (Parse : string -> string + url.URL)
    (ListenAndServe : Z -> option string)
    (data : string) (config : Config) (pre post : list string)
    (tok err : string)
    (Hread : ReadFile "config.json" = Some data)
    (Hjson : Unmarshal data {| Port := 3030; Backends := [] |} = Some config)
    (Hlist : Backends config = pre ++ tok :: post)
    (Hpre : Forall (fun t => exists u, Parse t = inr u) pre)
    (Hbad : Parse tok = inl err) :
  main ReadFile Unmarshal Parse ListenAndServe = Fatal err.
Proof.
  unfold main. rewrite Hread, Hjson, Hlist.
  destruct (Z.eqb_spec (len (pre ++ tok :: post)) 0) as [E|_].
  { unfold len in E. rewrite length_app in E. simpl in E. lia. }
  assert (Hrange : forall s, main_range Parse (pre ++ tok :: post) s = inl err).
  { clear Hlist. induction Hpre as [|t pre [u Ht] _ IH]; intros s;
      cbn [app main_range].
    - by rewrite Hbad.
    - rewrite Ht. apply IH. }
  by rewrite Hrange.
Qed.

Lemma main_rejects_bad_backend_witness :
  main (fun _ => Some "{}")
       (fun _ c => Some {| Port := 8080; Backends := ["http://a"; ":"; "http://b"] |})
       (fun tok => if String.eqb tok ":" then inl "missing protocol scheme"
                   else inr (url.mkURL tok tok))
       (fun _ => None)
  = Fatal "missing protocol scheme".
Proof.
  apply (main_rejects_bad_backend _ _ _ _ "{}"
           {| Port := 8080; Backends := ["http://a"; ":"; "http://b"] |}
           ["http://a"] ["http://b"] ":" "missing protocol scheme");
    [reflexivity|reflexivity|reflexivity| |reflexivity].
  constructor; [|constructor]. by eexists.
Defined.

(** X16. The first request after start-up goes to the second configured
    backend, or to the only one: on the pool [main] builds from at least
    one URL, the first [GetNextPeer] returns the slot [1 mod N] and leaves
    the cursor at 1. *)
Theorem first_request_goes_to_second_backend
    (urls : list url.URL) (Hne : urls <> []) :
  exists s',
    GetNextPeer (configure urls)
    = Returns (Some (1 mod length urls)%nat, s') /\
    current s' = 1 /\ backends s' = backends (configure urls).
Proof.
  destruct (configure_invariant urls Hne) as (Hbs & Hal & Hc).
  rewrite (GetNextPeer_all_alive _ Hbs Hal), Hc.
  exists {| backends := backends (configure urls);
            current := atomic.AddUint64 0 1 |}.
  split; [|split; reflexivity].
  do 3 f_equal. rewrite configure_backends. unfold len. cbn [backends].
  rewrite length_fmap. change (atomic.AddUint64 0 1) with (Z.of_nat 1).
  rewrite <- Nat2Z.inj_mod. apply Nat2Z.id.
Qed.

Lemma first_request_goes_to_second_backend_witness :
  exists s',
    GetNextPeer (configure [urlA; urlB; urlC]) = Returns (Some 1%nat, s').
Proof.
  destruct (first_request_goes_to_second_backend [urlA; urlB; urlC])
    as (s' & H & _).
  - discriminate.
  - exists s'. exact H.
Defined.

(** ** The readers and the keys they use *)

(** X17. What the readers do find: an [int] stored under the [int] key
    [Retry] (or [Attempts]) by the innermost layer of the context is what
    [GetRetryFromContext] (or [GetAttemptsFromContext]) returns, the other
    reader is not affected by it, and a value of another type under that
    key reads as the default. *)
Theorem counters_read_int_keys (r : Request) (n : Z) (tag : nat) :
  let store k v := WithContext r (context.WithValue (Context r) (context.of_int k) v) in
  GetRetryFromContext (store Retry (context.of_int n)) = n /\
  GetAttemptsFromContext (store Attempts (context.of_int n)) = n /\
  GetAttemptsFromContext (store Retry (context.of_int n)) = GetAttemptsFromContext r /\
  GetRetryFromContext (store Attempts (context.of_int n)) = GetRetryFromContext r /\
  GetRetryFromContext (store Retry (context.of_other tag)) = 0 /\
  GetAttemptsFromContext (store Attempts (context.of_other tag)) = 1.
Proof.
  unfold GetRetryFromContext, GetAttemptsFromContext, WithContext,
    context.WithValue, Retry, Attempts.
  cbn [Context context.Value].
  rewrite !bool_decide_eq_true_2 by done.
  rewrite !bool_decide_eq_false_2 by discriminate. done.
Qed.

(** ** Rotation over the backends that are alive *)

(** The first element of a filtered list, in the list. *)
Lemma filter_head_split {A} (P : A -> Prop) `{!forall x, Decision (P x)}
    (l : list A) x rest :
  filter P l = x :: rest ->
  exists l1 l2,
    l = l1 ++ x :: l2 /\ Forall (fun y => ~ P y) l1 /\ P x /\
    filter P l2 = rest.
Proof.
  induction l as [|y l IH]; [done|].
  destruct (decide (P y)) as [Hy|Hy].
  - rewrite filter_cons_True by done. intros [= -> <-].
    exists [], l. by repeat split.
  - rewrite filter_cons_False by done. intros Hf.
    destruct (IH Hf) as (l1 & l2 & -> & Hl1 & Hx & Hrest).
    exists (y :: l1), l2. repeat split; [|done|done]. by constructor.
Qed.

Lemma alive_at_true (s : ServerPool) i :
  alive_at s i = true <-> exists b, backends s !! i = Some b /\ Alive b = true.
Proof.
  unfold alive_at. destruct (backends s !! i) as [b|].
  - split; [by exists b|]. by intros (b' & [= <-] & H).
  - split; [done|]. by intros (b' & ? & _).
Qed.

(** [r] selections in a row return the backends that are alive among the
    slots a turn has still to visit, in the order of the turn. *)
Lemma select_n_alive (s0 : ServerPool) (start0 : Z) (r : nat) :
  let N := len (backends s0) in
  let order0 := (fun k : nat => Z.to_nat ((start0 + Z.of_nat k) mod N))
                  <$> seq 0 (length (backends s0)) in
  forall (K : nat) (s : ServerPool),
  backends s = backends s0 ->
  (K <= length (backends s0))%nat ->
  0 <= current s -> current s + Z.of_nat r + 1 < 2 ^ 64 ->
  N + Z.of_nat r + 1 < 2 ^ 64 ->
  (current s + 1) mod N = (start0 + Z.of_nat K) mod N ->
  length (filter (fun i => alive_at s0 i = true) (drop K order0)) = r ->
  exists s',
    select_n r s
    = Returns (Some <$> filter (fun i => alive_at s0 i = true) (drop K order0), s') /\
    backends s' = backends s0.
Proof.
  intros N order0. induction r as [|r IH];
    intros K s Hbs HK Hc0 Hc1 HN1 Hstart Hlen.
  - apply nil_length_inv in Hlen. rewrite Hlen. by exists s.
  - destruct (filter _ (drop K order0)) as [|j rest] eqn:Hf; [done|].
    injection Hlen as Hlen.
    destruct (filter_head_split _ _ _ _ Hf) as (l1 & l2 & Hd & Hl1 & Hj & Hrest).
    assert (Hord : length order0 = length (backends s0)).
    { unfold order0. by rewrite length_fmap, length_seq. }
    assert (HKk : (K + length l1 < length (backends s0))%nat).
    { apply (f_equal length) in Hd.
      rewrite length_drop, length_app, Hord in Hd. simpl in Hd. lia. }
    assert (Hne : backends s <> []).
    { rewrite Hbs. intros E. rewrite E in HKk. simpl in HKk. lia. }
    pose proof (len_pos _ Hne) as HNpos. rewrite Hbs in HNpos. fold N in HNpos.
    assert (Hat : forall k : nat, (K + k < length (backends s0))%nat ->
              order0 !! (K + k)%nat
              = Some (Z.to_nat ((start0 + Z.of_nat K + Z.of_nat k) mod N))).
    { intros k Hk. unfold order0.
      rewrite list_lookup_fmap, lookup_seq_lt by lia. simpl.
      do 3 f_equal. lia. }
    assert (Hjk : j = Z.to_nat ((start0 + Z.of_nat K + Z.of_nat (length l1)) mod N)).
    { pose proof (Hat (length l1) HKk) as E.
      rewrite <- lookup_drop, Hd in E.
      rewrite lookup_app_r, Nat.sub_diag in E by lia. by injection E. }
    (* what [GetNextPeer] does *)
    pose proof (GetNextPeer_first s Hne) as H. cbn zeta in H.
    rewrite Hbs in H. fold N in H.
    rewrite (Z.mod_small (current s + 1)) in H by lia.
    rewrite Hstart in H.
    apply alive_at_true in Hj as (bj & Hbj & Halj).
    cbn [select_n].
    destruct (GetNextPeer s) as [[[j'|] s1]|msg]; [| |done].
    2:{ destruct H as [_ Hdead]. rewrite (Hdead bj) in Halj; [done|].
        by eapply list_elem_of_lookup_2. }
    destruct H as (k & b & Hk & Hj' & Hb & Hal & Hdead & Hbs1 & Hc).
    rewrite Zplus_mod_idemp_l in Hj'.
    assert (Hkeq : k = length l1).
    { destruct (Nat.lt_trichotomy k (length l1)) as [Hlt|[->|Hgt]]; [|done|].
      - exfalso. destruct (lookup_lt_is_Some_2 l1 k Hlt) as [x Hx].
        pose proof (Hat k ltac:(lia)) as E.
        rewrite <- lookup_drop, Hd, lookup_app_l, Hx in E by done.
        injection E as ->. rewrite <- Hj' in Hx.
        rewrite Forall_lookup in Hl1. apply (Hl1 _ _ Hx).
        apply alive_at_true. by exists b.
      - exfalso. assert (Alive bj = false); [|congruence].
        apply (Hdead (length l1) bj Hgt).
        rewrite Zplus_mod_idemp_l, <- Hjk. done. }
    subst k. rewrite <- Hjk in Hj'. subst j'.
    (* the pool it leaves *)
    pose proof (Z.mod_pos_bound (start0 + Z.of_nat K + Z.of_nat (length l1)) N HNpos)
      as Hidx.
    assert (Hcur1 : current s1 mod N
                    = (start0 + Z.of_nat K + Z.of_nat (length l1)) mod N /\
                    0 <= current s1 /\ current s1 + Z.of_nat r + 1 < 2 ^ 64).
    { destruct (length l1) as [|k] eqn:Ek.
      - rewrite Hc, Hstart, Z.add_0_r. repeat split; lia.
      - rewrite Zplus_mod_idemp_l in Hc.
        rewrite Hc, (Z.mod_small _ (2 ^ 64)) by lia.
        rewrite Z.mod_mod by lia. repeat split; lia. }
    destruct Hcur1 as (Hmod1 & Hc10 & Hc11).
    assert (Hdrop : drop (K + length l1 + 1) order0 = l2).
    { replace (K + length l1 + 1)%nat with (K + S (length l1))%nat by lia.
      rewrite <- drop_drop, Hd.
      change (l1 ++ j :: l2) with (l1 ++ [j] ++ l2).
      rewrite app_assoc, drop_app_length'; [done|].
      rewrite length_app. simpl. lia. }
    destruct (IH (K + length l1 + 1)%nat s1) as (s' & Hsel & Hbs');
      [congruence|lia|done|lia|lia| | |].
    + rewrite <- Zplus_mod_idemp_l, Hmod1, Zplus_mod_idemp_l. f_equal. lia.
    + by rewrite Hdrop, Hrest.
    + exists s'. split; [|done].
      rewrite Hsel, Hdrop, Hrest. done.
Qed.

(** A turn visits every slot once. *)
Lemma scan_order_Permutation (s : ServerPool) :
  scan_order s ≡ₚ seq 0 (length (backends s)).
Proof.
  destruct (backends s) as [|b0 rest] eqn:Ebs.
  { unfold scan_order. by rewrite Ebs. }
  assert (HN : 0 < len (backends s)) by (apply len_pos; by rewrite Ebs).
  pose proof (rotation_is_permutation (len (backends s)) (rotation_start s)
                (length (backends s)) eq_refl HN) as H.
  apply (fmap_Permutation (default 0%nat)) in H.
  rewrite <- !list_fmap_compose in H. rewrite <- Ebs.
  unfold scan_order.
  rewrite <- (list_fmap_id (seq 0 (length (backends s)))) at 2.
  exact H.
Qed.

(** X18. Round robin over the backends that are alive.  With the cursor
    at least [2 N + 2] below 2^64, as many selections in a row as there are
    backends alive return every backend that is alive exactly once, in the
    order of a turn of the pool that starts one past the cursor; backends
    marked down are never returned, and the backends are left as they
    were. *)
Theorem GetNextPeer_rotates_over_alive (s : ServerPool)
    (Hcur : 0 <= current s /\ current s + 2 * len (backends s) + 2 < 2 ^ 64) :
  let alive := filter (fun i => alive_at s i = true) (scan_order s) in
  exists s',
    select_n (length alive) s = Returns (Some <$> alive, s') /\
    backends s' = backends s /\
    alive ≡ₚ filter (fun i => alive_at s i = true) (seq 0 (length (backends s))).
Proof.
  intros alive.
  assert (Hperm : alive ≡ₚ filter (fun i => alive_at s i = true)
                             (seq 0 (length (backends s)))).
  { unfold alive. by rewrite scan_order_Permutation. }
  pose proof (length_filter (fun i => alive_at s i = true) (scan_order s)) as Hle.
  fold alive in Hle.
  assert (Hlo : length (scan_order s) = length (backends s)).
  { unfold scan_order. by rewrite length_fmap, length_seq. }
  destruct (select_n_alive s (rotation_start s) (length alive) 0 s)
    as (s' & Hsel & Hbs); try done; try (unfold len in *; lia).
  - rewrite Z.add_0_r. unfold rotation_start.
    destruct (Z.eq_dec (len (backends s)) 0) as [E|E].
    + rewrite E. by rewrite !Z.mod_0_r.
    + by rewrite Z.mod_mod.
  - exists s'. rewrite drop_0 in Hsel. done.
Qed.

Lemma GetNextPeer_rotates_over_alive_witness :
  exists s',
    select_n 2 (MarkBackendStatus (poolABC 0) urlB false)
    = Returns ([Some 2%nat; Some 0%nat], s').
Proof.
  destruct (GetNextPeer_rotates_over_alive
              (MarkBackendStatus (poolABC 0) urlB false)) as (s' & H & _).
  - vm_compute. split; [discriminate|reflexivity].
  - exists s'. exact H.
Defined.

(** * A request from the server whose upstreams all fail *)








